(* ===== verification/_CoqProject ===== *)
-Q . S2P
Prelude.v
Board.v
Minimax.v
BestMove.v
DepthShift.v
Outcome.v
Game.v
NeverLoses.v
