(* ===== verification/Prelude.v ===== *)
(** * A verification development for TicTacToeBot (src/src/Game.js)

    The repository is one React component, [Game] in src/src/Game.js.  It
    holds three parts that call each other in this order:

    - the board rules: [checkWinner] (lines 8-29) scans the eight winning
      lines and reports ["X"], ["O"], ['Draw'] or [undefined]; [gameOver]
      (lines 31-41) calls it twice and then scans for a blank;
    - the search engine: [minimax] (lines 44-89) is a full-width depth-first
      minimax over ONE shared array, which every level mutates in place and
      undoes; [bestMove] (lines 92-108) is the bot's argmin over its moves,
      keeping the first optimal one (strict [<]);
    - the controller: [computerMove] (lines 111-116), [handleClick] (lines
      118-129), the [useEffect] callback (lines 131-146) with its 100 ms
      [setTimeout] reset, and the Reset button (line 188).  They share the
      React state [gameboard] (an array object mutated in place and passed
      back to [setGameboard] by reference) and [depth] (the number of marks
      played, whose parity is the turn).

    Files, in dependency order, and what each models:

    - [Prelude] (this file): the scope [ttt_scope]; the state-and-error
      monad [St] in which the array code is written ([let*], [st_get],
      [st_put], [st_fail]); the JS [Infinity] as [zinf] with [zinf_lt];
      [keep_max]/[keep_min], the update steps of the loops; fold lemmas on
      [Z.max]/[Z.min]; the list lemmas of in-place update and undo; the hint
      databases [ttt] and [ttt_rw]; the tactics.
    - [Board]: [cell] ([MarkX], [MarkO], [Blank] for ["X"], ["O"], ["_"]),
      [verdict], [winPatterns], [pattern_holds], [checkWinner_loop],
      [checkWinner], [truthy], [gameOver_scan], [gameOver]; the array
      primitives [read], [write], [board_length] of [St (list cell)]; the
      declarative [line_of], [has_line], [blanks].
    - [Minimax]: [terminal_score] (lines 49-59), [minimax_loop] (both loops,
      lines 63-87), [minimax] (with fuel) and [minimax_run] (the call on an
      array of length n with n + 1 fuel).  [Minimax.Spec.game_value] is the
      reference: the same recursion on fresh copies (spec section 9), by
      [Z.max]/[Z.min] over the children, structural in the blank count.
    - [BestMove]: [bestMove_loop] and [bestMove]; [move_score] and the loop
      invariant [first_argmin_below].
    - [DepthShift]: [shift_score], the map from the values of a search
      counted from one ply to those of the same search counted [2 * k]
      plies later, and the gap [score_gap] of values a game can produce.
    - [Outcome]: [forces_win p board depth], player [p] can force a win, as
      an inductive predicate; the sign of the score; the value [0] of the
      empty board (a lemma the controller's invariant starts from).
    - [Game]: the controller.  State [game]: a heap of arrays, the location
      in [gameboard], [depth], the pending timers (each with the location it
      captured) and the alerts shown.  [handleClick], [computerMove],
      [effect], [run_effects]/[settle] (the effect re-runs when it changed
      the state), [step] on [event]s ([Click], [ResetButton], [TimerFires]),
      and [reachable].  The controller calls the search through the class
      [BotEngine] with laws [BotEngineLaws]; its theorems are proved from
      the laws, and [bestMove_engine] discharges them from [BestMove].
    - [NeverLoses]: the invariant [x_held] over reachable states with the
      real engine, and the theorem that the bot never loses.

    What the theorems show (the claims C1-C22 of PROJECT.json):

    - search (C1, C2, C17): for fuel above the blank count the in-place
      [minimax] terminates, gives the array back unchanged and computes the
      reference value (refinement); the value is the max/min of the
      children's values and one child reaches it; in a real game it lies in
      [[-10, 10]];
    - meaning of the score ([Outcome]; C4): positive exactly when ["X"] can
      force a win, negative exactly when ["O"] can;
    - best move (C5, C6, C7, C14, C15): [bestMove] terminates, restores the
      array, returns [undefined] exactly on a full board, otherwise the
      first blank of least score; at odd depth that score is the position's
      value; when a blank completes a line of ["O"] it plays the first such
      blank; when none does and ["X"] threatens a line at one blank only,
      it blocks there;
    - where the count starts ([DepthShift]; C16): an even shift of [depth]
      keeps the move of [bestMove] while the game fits in nine plies (the
      spec's open question of section 9);
    - board rules (C9, C10, C18): what each verdict of [checkWinner] means,
      [gameOver] as "a line or no blank" and as one [checkWinner] call,
      monotonicity under added marks;
    - controller (C11, C12, C13, C19, C20, C21): over all reachable states
      [depth] counts the marks and X leads exactly at odd depth; the page
      only waits when the game is over or it is the human's turn; the bot's
      move always lands on a blank; every alert names a verdict; the effect
      chain stops after two runs; clicks on taken cells change nothing;
    - the whole program ([NeverLoses]; C3): with [bestMove] behind the
      page, ["X"] never owns a line unless ["O"] owns one too;
    - two defects (C8, C22): [handleClick] has no [gameOver] guard, so on a
      finished board (which always has a reset timer pending on its array)
      a click on a blank is accepted and written into the array the timer
      reads; no click or Reset cancels a pending timer, and when it fires it
      wipes whatever game is on screen.

    Fuel and bounds: [minimax] makes at most one nested call per blank plus
    the terminal call, so [S (length board)] suffices; the refinement
    theorem holds for every fuel above the blank count.  Loops carry
    [board.length] as fuel and test the source's own [i < board.length].
    The sentinels [-20]/[20] are below/above every score when
    [depth + blanks <= 30], which every game satisfies (it needs <= 9).
    Two effect runs suffice ([effect_settles]).

    Assumptions on React: a state update re-renders and runs the effect
    before the next event; the timer callback's [setGameboard] and
    [setDepth] are batched into one update ([reset_state]; React 18
    batches updates inside timers, older versions would render in
    between, with the new empty array at the old depth); timers fire in
    the order they were scheduled; an event handler sees the state of the
    last render.

    Not modelled: JSX rendering and CSS (lines 2 and 148-192, apart from
    the nine [onClick] handlers and the Reset button, which are the
    [event]s), and [alert]'s display (an output list of texts).

    The empty board's value is computed by [vm_compute] over the whole game
    tree (about 35 s); every other evaluation is on boards with few blanks.

    Plan: the first-pattern order of [checkWinner] when both players own a
    line; the preference for the fastest win beyond the next move (a win in
    [k] plies over a win in [k + 2]); the older-React schedule in which the
    two updates of the timer render separately. *)

From stdpp Require Import base list.
From Stdlib Require Import ZArith.

Declare Scope ttt_scope.
Delimit Scope ttt_scope with ttt.
Open Scope ttt_scope.

(** ** The JavaScript [Infinity] used as an initial best score *)

Inductive zinf := Fin (z : Z) | Infinity.

(** [score < best] in JS, where [best] may be [Infinity]. *)
Definition zinf_lt (score : Z) (best : zinf) : bool :=
  match best with
  | Fin b => Z.ltb score b
  | Infinity => true
  end.

Notation "a <? ∞ b" := (zinf_lt a b) (at level 70) : ttt_scope.

(** ** A state and error monad

    [St S A] threads a mutable store [S] through code that may fail.  The
    failure case is only used for running out of fuel. *)

Definition St (S A : Type) : Type := S -> option (A * S).

Definition st_ret {S A} (a : A) : St S A := fun s => Some (a, s).
Definition st_bind {S A B} (m : St S A) (k : A -> St S B) : St S B :=
  fun s => match m s with Some (a, s') => k a s' | None => None end.
Definition st_get {S} : St S S := fun s => Some (s, s).
Definition st_put {S} (s : S) : St S unit := fun _ => Some (tt, s).
Definition st_fail {S A} : St S A := fun _ => None.

Notation "'let*' x := m 'in' k" := (st_bind m (fun x => k))
  (at level 10, x binder, m at level 100, k at level 200) : ttt_scope.

Create HintDb ttt.
Create Rewrite HintDb ttt_rw.

Lemma st_bind_Some {S A B} (m : St S A) (k : A -> St S B) s a s' :
  m s = Some (a, s') -> st_bind m k s = k a s'.
Proof. unfold st_bind. by intros ->. Qed.

Lemma st_bind_None {S A B} (m : St S A) (k : A -> St S B) s :
  m s = None -> st_bind m k s = None.
Proof. unfold st_bind. by intros ->. Qed.

(** ** The "keep the better score" steps of the loops

    [if (score > best_score) best_score = score] and its [<] twin. *)

Definition keep_max (best score : Z) : Z := if Z.gtb score best then score else best.
Definition keep_min (best score : Z) : Z := if Z.ltb score best then score else best.

Lemma keep_max_spec best score : keep_max best score = Z.max best score.
Proof. unfold keep_max. destruct (Z.gtb_spec score best); lia. Qed.

Lemma keep_min_spec best score : keep_min best score = Z.min best score.
Proof. unfold keep_min. destruct (Z.ltb_spec score best); lia. Qed.

#[export] Hint Rewrite keep_max_spec keep_min_spec : ttt_rw.

Section Folds.
Implicit Types (l : list Z) (z : Z).
Local Open Scope Z_scope.

Lemma fold_max_ge_init l z : z <= fold_left Z.max l z.
  Proof. revert z. induction l as [|x l IH]; intros z; simpl; [lia|]. specialize (IH (Z.max z x)). lia. Qed.

Lemma fold_max_ge l z x : x ∈ l -> x <= fold_left Z.max l z.
  Proof.
    revert z. induction l as [|y l IH]; intros z Hx; [by apply elem_of_nil in Hx|].
    simpl. apply elem_of_cons in Hx as [->|Hx]; [|by apply IH].
    pose proof (fold_max_ge_init l (Z.max z y)). lia.
  Qed.

Lemma fold_max_cases l z : fold_left Z.max l z = z \/ fold_left Z.max l z ∈ l.
  Proof.
    revert z. induction l as [|y l IH]; intros z; simpl; [by left|].
    destruct (IH (Z.max z y)) as [->|?]; [|right; apply elem_of_cons; by right].
    destruct (Z.max_spec z y) as [[_ ->]|[_ ->]]; [right; apply elem_of_cons; by left|by left].
  Qed.

Lemma fold_min_le_init l z : fold_left Z.min l z <= z.
  Proof. revert z. induction l as [|x l IH]; intros z; simpl; [lia|]. specialize (IH (Z.min z x)). lia. Qed.

Lemma fold_min_le l z x : x ∈ l -> fold_left Z.min l z <= x.
  Proof.
    revert z. induction l as [|y l IH]; intros z Hx; [by apply elem_of_nil in Hx|].
    simpl. apply elem_of_cons in Hx as [->|Hx]; [|by apply IH].
    pose proof (fold_min_le_init l (Z.min z y)). lia.
  Qed.

Lemma fold_min_cases l z : fold_left Z.min l z = z \/ fold_left Z.min l z ∈ l.
  Proof.
    revert z. induction l as [|y l IH]; intros z; simpl; [by left|].
    destruct (IH (Z.min z y)) as [->|?]; [|right; apply elem_of_cons; by right].
    destruct (Z.min_spec z y) as [[_ ->]|[_ ->]]; [by left|right; apply elem_of_cons; by left].
  Qed.

  (** A fold with a sentinel [z] below (above) every element is the
      maximum (minimum) of a non-empty list, and is one of its elements. *)
Lemma fold_max_attained l z :
    l <> [] -> Forall (fun x => z <= x) l -> fold_left Z.max l z ∈ l.
  Proof.
    intros Hne Hall. destruct (fold_max_cases l z) as [Heq|]; [|done].
    destruct l as [|x l]; [done|]. inversion Hall; subst.
    pose proof (fold_max_ge (x :: l) z x (proj2 (elem_of_cons _ _ _) (or_introl eq_refl))).
    assert (x = z) as -> by lia. rewrite Heq. apply elem_of_cons; by left.
  Qed.

Lemma fold_min_attained l z :
    l <> [] -> Forall (fun x => x <= z) l -> fold_left Z.min l z ∈ l.
  Proof.
    intros Hne Hall. destruct (fold_min_cases l z) as [Heq|]; [|done].
    destruct l as [|x l]; [done|]. inversion Hall; subst.
    pose proof (fold_min_le (x :: l) z x (proj2 (elem_of_cons _ _ _) (or_introl eq_refl))).
    assert (x = z) as -> by lia. rewrite Heq. apply elem_of_cons; by left.
  Qed.
End Folds.

(** ** Arrays updated in place *)

Section ListUpdate.
Context {A : Type}.
Implicit Types (l : list A) (x y : A).

  (** Writing a cell and writing its old value back restores the array:
      the [board[i] = "X"; ...; board[i] = "_"] pattern of the search. *)
Lemma list_insert_restore l i x y :
    l !! i = Some x -> <[i:=x]> (<[i:=y]> l) = l.
  Proof. intros H. rewrite list_insert_insert_eq. by apply list_insert_id. Qed.

Lemma list_lookup_insert_same l i x y :
    l !! i = Some y -> <[i:=x]> l !! i = Some x.
  Proof. intros H. apply list_lookup_insert_eq. by eapply lookup_lt_Some. Qed.
End ListUpdate.

#[export] Hint Rewrite @length_insert : ttt_rw.
#[export] Hint Resolve list_insert_restore list_lookup_insert_same : ttt.

(** Counting the occurrences of a value, as [filter] does it. *)
Definition count_of `{EqDecision A} (x : A) (l : list A) : nat :=
  length (filter (fun y => y = x) l).

Lemma count_of_insert `{EqDecision A} (l : list A) i x y z :
  l !! i = Some y ->
  count_of z (<[i:=x]> l) + (if decide (y = z) then 1 else 0)
  = count_of z l + (if decide (x = z) then 1 else 0).
Proof.
  unfold count_of. revert i. induction l as [|a l IH]; intros [|i] H; simpl in *; try done.
  - injection H as ->. rewrite !filter_cons.
    repeat case_decide; simpl; subst; try done; lia.
  - rewrite !filter_cons. specialize (IH i H). repeat case_decide; simpl in *; lia.
Qed.

(** ** Tactics *)

(** Split every boolean test of a loop body into its two cases. *)
(** A first minimiser is unique: two indices that both reach the least
    value of [f] over [P] and beat every earlier index of [P] are equal. *)
Lemma first_argmin_unique (P : nat -> Prop) (f : nat -> Z) i i' :
  P i -> P i' ->
  (forall j, P j -> (f i <= f j)%Z) -> (forall j, P j -> j < i -> (f i < f j)%Z) ->
  (forall j, P j -> (f i' <= f j)%Z) -> (forall j, P j -> j < i' -> (f i' < f j)%Z) ->
  i = i'.
Proof.
  intros Hi Hi' Hmin Hfirst Hmin' Hfirst'.
  destruct (lt_eq_lt_dec i i') as [[Hlt|]|Hlt]; [|done|].
  - specialize (Hfirst' i Hi Hlt). specialize (Hmin i' Hi'). lia.
  - specialize (Hfirst i' Hi' Hlt). specialize (Hmin' i Hi). lia.
Qed.

(** Parity of a successor, for the turn test [depth % 2 === 0]. *)
Lemma even_S d : Nat.even (S d) = negb (Nat.even d).
Proof. by rewrite Nat.even_succ, <- Nat.negb_even. Qed.

Ltac case_tests :=
  repeat match goal with
  | |- context [if decide ?P then _ else _] => case_decide
  | |- context [if bool_decide ?P then _ else _] => case_bool_decide
  | |- context [Nat.ltb ?a ?b] => destruct (Nat.ltb_spec a b)
  end.

(** Run a monadic computation one bind at a time with a known first step. *)
Ltac st_step H := erewrite st_bind_Some by (apply H).
