(* ===== verification/Board.v ===== *)
(** * Board rules: [checkWinner] and [gameOver] (src/src/Game.js, lines 8-41)

    The board is the JS array of nine strings, modelled as [list cell]; a
    read [board[i]] is [board !! i], which is [None] (JS [undefined]) out of
    range.  [checkWinner] returns [option verdict]: [Some WinX] for ["X"],
    [Some WinO] for ["O"], [Some Draw] for ['Draw'], [None] for the
    implicit [undefined].  The file proves what each function computes in
    terms of the declarative [has_line] and [blanks]. *)

From stdpp Require Import base list.
From Stdlib Require Import ZArith.
From S2P Require Import Prelude.

(** ** Data *)

(** The strings ["X"], ["O"] and ["_"] stored in the array. *)
Inductive cell := MarkX | MarkO | Blank.

#[export] Instance cell_eq_dec : EqDecision cell.
Proof. solve_decision. Defined.

(** The results of [checkWinner] other than [undefined]. *)
Inductive verdict := WinX | WinO | Draw.

#[export] Instance verdict_eq_dec : EqDecision verdict.
Proof. solve_decision. Defined.

(** Lines 9-18. *)
Definition winPatterns : list (nat * nat * nat) :=
  [(0, 1, 2); (3, 4, 5); (6, 7, 8);
   (0, 3, 6); (1, 4, 7); (2, 5, 8);
   (0, 4, 8); (2, 4, 6)].

(** Lines 21 and 24:
    [board[a] == m && board[a] === board[b] && board[a] === board[c]]. *)
Definition pattern_holds (m : cell) (board : list cell) (p : nat * nat * nat) : bool :=
  let '(a, b, c) := p in
  bool_decide (board !! a = Some m /\ board !! a = board !! b /\ board !! a = board !! c).

(** Lines 19-28: the [for ... of] loop over the patterns, then the
    [includes("_")] test; falling off the end returns [undefined]. *)
Fixpoint checkWinner_loop (pats : list (nat * nat * nat)) (board : list cell) : option verdict :=
  match pats with
  | [] => if bool_decide (Blank ∈ board) then None else Some Draw
  | p :: ps =>
      if pattern_holds MarkX board p then Some WinX
      else if pattern_holds MarkO board p then Some WinO
      else checkWinner_loop ps board
  end.

Definition checkWinner (board : list cell) : option verdict :=
  checkWinner_loop winPatterns board.

(** JS truthiness of a [checkWinner] result: the three strings are
    non-empty, [undefined] is falsy. *)
Definition truthy (r : option verdict) : bool :=
  match r with Some _ => true | None => false end.

(** Lines 35-39: [for (let i=0; i < board.length; i++) if (board[i] === "_")
    return false]; the fuel [k] is the number of iterations left. *)
Fixpoint gameOver_scan (k i : nat) (board : list cell) : bool :=
  match k with
  | 0 => true
  | S k' =>
      if Nat.ltb i (length board) then
        if decide (board !! i = Some Blank) then false
        else gameOver_scan k' (S i) board
      else true
  end.

(** Lines 31-41, with the duplicated [checkWinner] call of line 32. *)
Definition gameOver (board : list cell) : bool :=
  if truthy (checkWinner board) || truthy (checkWinner board) then true
  else gameOver_scan (length board) 0 board.

(** ** Declarative view *)

Definition line_of (m : cell) (board : list cell) (p : nat * nat * nat) : Prop :=
  let '(a, b, c) := p in
  board !! a = Some m /\ board !! b = Some m /\ board !! c = Some m.

#[export] Instance line_of_dec m board p : Decision (line_of m board p).
Proof. destruct p as [[a b] c]. unfold line_of. apply _. Defined.

(** Player [m] owns one of the eight winning lines. *)
Definition has_line (m : cell) (board : list cell) : Prop :=
  Exists (line_of m board) winPatterns.

#[export] Instance has_line_dec m board : Decision (has_line m board).
Proof. unfold has_line. apply _. Defined.

(** The number of ["_"] cells. *)
Definition blanks (board : list cell) : nat := count_of Blank board.

(** ** Lemmas *)

Lemma pattern_holds_spec m board p :
  m <> Blank -> pattern_holds m board p = bool_decide (line_of m board p).
Proof.
  intros Hm. destruct p as [[a b] c]. unfold pattern_holds, line_of.
  apply bool_decide_ext. split; intros (Ha & Hb & Hc); repeat split; congruence.
Qed.

Lemma blanks_pos board : Blank ∈ board <-> 0 < blanks board.
Proof.
  unfold blanks, count_of. split.
  - intros H. apply Nat.neq_0_lt_0. intros Hl%nil_length_inv.
    assert (Blank ∈ filter (fun y => y = Blank) board) as Hin
      by (apply list_elem_of_filter; done).
    rewrite Hl in Hin. by apply elem_of_nil in Hin.
  - intros H. destruct (filter (fun y => y = Blank) board) as [|x l] eqn:E; [simpl in H; lia|].
    assert (x ∈ filter (fun y => y = Blank) board) as Hin by (rewrite E; apply elem_of_cons; by left).
    apply list_elem_of_filter in Hin as [-> ?]. done.
Qed.

(** Placing a mark on a blank removes exactly one blank. *)
Lemma blanks_insert board i m :
  board !! i = Some Blank -> m <> Blank -> blanks (<[i:=m]> board) = blanks board - 1 /\ 0 < blanks board.
Proof.
  intros Hi Hm. unfold blanks. pose proof (count_of_insert board i m Blank Blank Hi) as H.
  rewrite decide_True in H by done. rewrite decide_False in H by done.
  assert (0 < count_of Blank board).
  { apply blanks_pos. by eapply list_elem_of_lookup_2. }
  lia.
Qed.

Lemma blanks_insert_lt board i m n :
  board !! i = Some Blank -> m <> Blank -> blanks board < S n -> blanks (<[i:=m]> board) < n.
Proof. intros Hi Hm Hn. destruct (blanks_insert board i m Hi Hm). lia. Qed.

#[export] Hint Resolve blanks_insert blanks_insert_lt : ttt.

(** Every cell is a mark or a blank. *)
Lemma count_partition board :
  count_of MarkX board + count_of MarkO board + blanks board = length board.
Proof.
  unfold blanks, count_of. induction board as [|c board IH]; [done|].
  rewrite !filter_cons. destruct c; repeat case_decide; simpl; try done; lia.
Qed.

(** The loop of lines 19-28 on any list of patterns. *)
Lemma checkWinner_loop_spec pats board :
  match checkWinner_loop pats board with
  | Some WinX => Exists (line_of MarkX board) pats
  | Some WinO => Exists (line_of MarkO board) pats
  | Some Draw => ~ Exists (line_of MarkX board) pats /\ ~ Exists (line_of MarkO board) pats /\ Blank ∉ board
  | None => ~ Exists (line_of MarkX board) pats /\ ~ Exists (line_of MarkO board) pats /\ Blank ∈ board
  end.
Proof.
  induction pats as [|p ps IH]; simpl.
  - case_bool_decide; repeat split; auto; intros H'; inversion H'.
  - rewrite !pattern_holds_spec by done.
    case_bool_decide as HX; [by constructor|].
    case_bool_decide as HO; [by constructor|].
    destruct (checkWinner_loop ps board) as [[| |]|];
      rewrite ?Exists_cons; naive_solver.
Qed.

(** When exactly one player owns a line, the loop reports that player. *)
Lemma checkWinner_loop_single pats board m w :
  (m = MarkX /\ w = WinX \/ m = MarkO /\ w = WinO) ->
  Exists (line_of m board) pats ->
  (forall m', m' <> m -> m' <> Blank -> ~ Exists (line_of m' board) pats) ->
  checkWinner_loop pats board = Some w.
Proof.
  intros Hmw. induction pats as [|p ps IH]; intros Hm Hother; [inversion Hm|].
  simpl. rewrite !pattern_holds_spec by done.
  apply Exists_cons in Hm.
  destruct Hmw as [[-> ->]|[-> ->]].
  - case_bool_decide; [done|].
    case_bool_decide as HO; [exfalso; apply (Hother MarkO); [done|done|by constructor]|].
    apply IH; [naive_solver|]. intros m' ???. apply (Hother m'); [done|done|by apply Exists_cons; right].
  - case_bool_decide as HX; [exfalso; apply (Hother MarkX); [done|done|by constructor]|].
    case_bool_decide; [done|].
    apply IH; [naive_solver|]. intros m' ???. apply (Hother m'); [done|done|by apply Exists_cons; right].
Qed.

(** The scan of lines 35-40 decides "no blank at index [i] or above". *)
Lemma gameOver_scan_spec k i board :
  length board <= i + k ->
  gameOver_scan k i board = true <-> forall j, i <= j -> board !! j <> Some Blank.
Proof.
  revert i. induction k as [|k IH]; intros i Hk; simpl.
  - split; [|done]. intros _ j ? Hj. apply lookup_lt_Some in Hj. lia.
  - destruct (Nat.ltb_spec i (length board)).
    + case_decide as Hb.
      * split; [done|]. intros Hall. by destruct (Hall i).
      * rewrite IH by lia. split.
        -- intros Hall j Hj. destruct (decide (i = j)) as [<-|]; [done|]. apply Hall. lia.
        -- intros Hall j Hj. apply Hall. lia.
    + split; [|done]. intros _ j ? Hj. apply lookup_lt_Some in Hj. lia.
Qed.

Lemma no_blank_iff (board : list cell) : (forall j, 0 <= j -> board !! j <> Some Blank) <-> Blank ∉ board.
Proof.
  split.
  - intros Hall Hin. apply list_elem_of_lookup in Hin as [j Hj]. by apply (Hall j); [lia|].
  - intros Hn j _ Hj. apply Hn. by eapply list_elem_of_lookup_2.
Qed.

(** A line stays a line when a blank elsewhere is filled. *)
Lemma has_line_insert m board i x :
  m <> Blank -> board !! i = Some Blank -> has_line m board -> has_line m (<[i:=x]> board).
Proof.
  intros Hm Hi Hl. unfold has_line. eapply Exists_impl; [exact Hl|]. intros [[a b] c] (Ha & Hb & Hc).
  assert (forall j, board !! j = Some m -> <[i:=x]> board !! j = Some m) as Hkeep.
  { intros j Hj. rewrite list_lookup_insert_ne; [done|]. intros ->. congruence. }
  simpl. auto.
Qed.

#[export] Hint Resolve has_line_insert : ttt.

(** A line of [m] after another mark is written at [i] was there before:
    the write cannot be part of it. *)
Lemma has_line_insert_other m board i x :
  x <> m -> has_line m (<[i:=x]> board) -> has_line m board.
Proof.
  intros Hx Hl. unfold has_line. eapply Exists_impl; [exact Hl|]. intros [[a b] c] (Ha & Hb & Hc).
  assert (forall j, <[i:=x]> board !! j = Some m -> board !! j = Some m) as Hback.
  { intros j Hj. apply list_lookup_insert_Some in Hj as [(_ & ? & _)|[_ ?]]; [congruence|done]. }
  simpl. auto.
Qed.

(** ** Properties of [checkWinner] and [gameOver] *)

(** What each result of [checkWinner] says about the board. *)
Lemma checkWinner_verdict board :
  match checkWinner board with
  | Some WinX => has_line MarkX board
  | Some WinO => has_line MarkO board
  | Some Draw => ~ has_line MarkX board /\ ~ has_line MarkO board /\ blanks board = 0
  | None => ~ has_line MarkX board /\ ~ has_line MarkO board /\ 0 < blanks board
  end.
Proof.
  pose proof (checkWinner_loop_spec winPatterns board) as H. unfold checkWinner, has_line.
  destruct (checkWinner_loop winPatterns board) as [[| |]|]; try done.
  - destruct H as (? & ? & Hb). repeat split; try done.
    destruct (blanks board) eqn:E; [done|]. exfalso. apply Hb, blanks_pos. lia.
  - destruct H as (? & ? & Hb). repeat split; try done. by apply blanks_pos.
Qed.

(** The two line tests and the index loop of [gameOver] compute the same
    thing as one [checkWinner] call: the game is over exactly when
    [checkWinner] returns a verdict. *)
Lemma gameOver_truthy board : gameOver board = truthy (checkWinner board).
Proof.
  unfold gameOver. destruct (truthy (checkWinner board)) eqn:E; [done|]. simpl.
  pose proof (checkWinner_verdict board) as H.
  destruct (checkWinner board) as [v|]; [done|]. destruct H as (_ & _ & Hb).
  apply not_true_iff_false. rewrite gameOver_scan_spec by lia. rewrite no_blank_iff.
  intros Hn. apply Hn, blanks_pos. done.
Qed.

Lemma gameOver_iff board :
  gameOver board = true <-> has_line MarkX board \/ has_line MarkO board \/ blanks board = 0.
Proof.
  rewrite gameOver_truthy. pose proof (checkWinner_verdict board) as H.
  destruct (checkWinner board) as [[| |]|]; simpl; split; try naive_solver.
  intros [?|[?|?]]; naive_solver lia.
Qed.

(** A finished game stays finished when a blank is filled. *)
Lemma gameOver_mono board i m :
  board !! i = Some Blank -> m <> Blank ->
  gameOver board = true -> gameOver (<[i:=m]> board) = true.
Proof.
  intros Hi Hm. rewrite !gameOver_iff. intros [HX|[HO|Hb]].
  - left. by apply has_line_insert.
  - right; left. by apply has_line_insert.
  - exfalso. destruct (blanks_insert board i m Hi Hm). lia.
Qed.

(** ** The array as a mutable store

    The search code reads and writes one shared array.  These are its
    three primitives in the monad [St (list cell)]: [board[i]],
    [board[i] = c] and [board.length].  The code only writes below
    [board.length], where stdpp's insert and the JS store agree. *)

Definition read (i : nat) : St (list cell) (option cell) :=
  fun board => Some (board !! i, board).

Definition write (i : nat) (c : cell) : St (list cell) unit :=
  fun board => Some (tt, <[i:=c]> board).

Definition board_length : St (list cell) nat :=
  fun board => Some (length board, board).

#[export] Hint Resolve gameOver_mono : ttt.

(** A line of ["X"] alone makes [checkWinner] name ["X"]. *)
Lemma checkWinner_X board :
  has_line MarkX board -> ~ has_line MarkO board -> checkWinner board = Some WinX.
Proof. intros. apply (checkWinner_loop_single _ _ MarkX); [by left|done|]. by intros [| |] ? ?. Qed.

(** ** Properties *)

(** C9: [checkWinner] never reports a winner that has no line, reports
    ['Draw'] only on a full board without lines, and returns [undefined]
    exactly when no line exists and a blank is left. *)
Theorem checkWinner_spec board :
  match checkWinner board with
  | Some WinX => has_line MarkX board
  | Some WinO => has_line MarkO board
  | Some Draw => ~ has_line MarkX board /\ ~ has_line MarkO board /\ blanks board = 0
  | None => ~ has_line MarkX board /\ ~ has_line MarkO board /\ 0 < blanks board
  end.
Proof. apply checkWinner_verdict. Qed.

(** C10: [gameOver] holds exactly when a player owns a line or no blank is
    left (the spec's [isTerminal]); its duplicated [checkWinner] call and
    its index loop agree with one [checkWinner] call. *)
Theorem gameOver_spec board :
  (gameOver board = true <-> has_line MarkX board \/ has_line MarkO board \/ blanks board = 0) /\
  gameOver board = truthy (checkWinner board).
Proof. split; [apply gameOver_iff|apply gameOver_truthy]. Qed.

(** C18: a finished game stays finished when a mark is added on a blank
    cell, so the verdict an alert reads later cannot fall back to
    [undefined]. *)
Theorem gameOver_insert board i m :
  board !! i = Some Blank -> m <> Blank ->
  gameOver board = true -> gameOver (<[i:=m]> board) = true.
Proof. apply gameOver_mono. Qed.

(** ** Witnesses *)

Lemma gameOver_insert_witness :
  [MarkX; MarkX; MarkX; MarkO; MarkO; Blank; Blank; Blank; Blank] !! 5 = Some Blank /\
  gameOver [MarkX; MarkX; MarkX; MarkO; MarkO; Blank; Blank; Blank; Blank] = true /\
  gameOver (<[5:=MarkO]> [MarkX; MarkX; MarkX; MarkO; MarkO; Blank; Blank; Blank; Blank]) = true.
Proof.
  split; [reflexivity|]. split; [vm_compute; reflexivity|].
  apply gameOver_insert; [reflexivity|discriminate|vm_compute; reflexivity].
Defined.
