(* ===== verification/Minimax.v ===== *)
(** * The search: [minimax] (src/src/Game.js, lines 44-89)

    [minimax] runs in the store monad [St (list cell)]: the state is the
    one array that [minimax] and [bestMove] share; every [newBoard[i] = "X"]
    and [newBoard[i] = "_"] is a [write].  The fuel bounds the recursion
    depth; the loops carry [board.length] as fuel and test the source's
    condition [i < newBoard.length] on each iteration.

    [Spec.game_value] is the reference: the same recursion on fresh copies
    of the board (spec section 9), written with [Z.max]/[Z.min] over the
    list of children.  The refinement theorem says that the in-place search
    terminates, restores the board and returns the reference value; the
    later theorems are the game-theoretic content of that value. *)

From stdpp Require Import base list.
From Stdlib Require Import ZArith.
From S2P Require Import Prelude Board.

(** ** The code *)

(** Lines 49-59: the score of a finished position. *)
Definition terminal_score (board : list cell) (depth : nat) : Z :=
  if decide (checkWinner board = Some WinX) then (10 - Z.of_nat depth)%Z
  else if decide (checkWinner board = Some WinO) then (Z.of_nat depth - 10)%Z
  else 0%Z.

(** Lines 65-74 ([maximizing = true], [mark = MarkX]) and 77-86
    ([maximizing = false], [mark = MarkO]); [child] is the recursive call
    [minimax(newBoard, depth + 1)]. *)
Fixpoint minimax_loop (child : St (list cell) Z) (mark : cell) (maximizing : bool)
    (k i : nat) (best_score : Z) : St (list cell) Z :=
  match k with
  | 0 => st_ret best_score
  | S k' =>
      let* len := board_length in
      if Nat.ltb i len then
        let* c := read i in
        if decide (c = Some Blank) then
          let* _ := write i mark in
          let* score := child in
          let* _ := write i Blank in
          minimax_loop child mark maximizing k' (S i)
            (if maximizing then keep_max best_score score else keep_min best_score score)
        else minimax_loop child mark maximizing k' (S i) best_score
      else st_ret best_score
  end.

(** Lines 44-89.  The state is [newBoard] (the caller's array itself:
    line 45 copies the reference, not the array). *)
Fixpoint minimax (fuel : nat) (depth : nat) : St (list cell) Z :=
  match fuel with
  | 0 => st_fail
  | S fuel' =>
      let* newBoard := st_get in
      if gameOver newBoard then st_ret (terminal_score newBoard depth)
      else
        let* len := board_length in
        if Nat.even depth then minimax_loop (minimax fuel' (S depth)) MarkX true len 0 (-20)%Z
        else minimax_loop (minimax fuel' (S depth)) MarkO false len 0 20%Z
  end.

(** A call [minimax(board, depth)] on an array of length [n]: the
    recursion is at most [n + 1] calls deep. *)
Definition minimax_run (board : list cell) (depth : nat) : option (Z * list cell) :=
  minimax (S (length board)) depth board.

(** ** The reference: minimax on copies of the board *)

Module Spec.
  (** Whose mark a move at this depth places. *)
Definition turn_mark (depth : nat) : cell := if Nat.even depth then MarkX else MarkO.

  (** The legal moves, in ascending index order. *)
Definition moves (board : list cell) : list nat :=
    filter (fun i => board !! i = Some Blank) (seq 0 (length board)).

  (** [n] counts the blanks, so the recursion is structural. *)
Fixpoint value (n : nat) (board : list cell) (depth : nat) : Z :=
    match n with
    | 0 => terminal_score board depth
    | S n' =>
        if gameOver board then terminal_score board depth
        else
          let vs := map (fun i => value n' (<[i:=turn_mark depth]> board) (S depth)) (moves board) in
          if Nat.even depth then fold_left Z.max vs (-20)%Z else fold_left Z.min vs 20%Z
    end.

Definition game_value (board : list cell) (depth : nat) : Z := value (blanks board) board depth.
End Spec.

(** ** The loop *)

(** The blank indices from [i] on, in the order the loop visits them. *)
Definition blanks_from (board : list cell) (i : nat) : list nat :=
  filter (fun j => board !! j = Some Blank) (seq i (length board - i)).

Lemma blanks_from_step board i :
  i < length board ->
  blanks_from board i =
  (if decide (board !! i = Some Blank) then [i] else []) ++ blanks_from board (S i).
Proof.
  intros Hi. unfold blanks_from.
  replace (length board - i) with (S (length board - S i)) by lia.
  simpl. rewrite filter_cons. by case_decide.
Qed.

Lemma blanks_from_end board i : length board <= i -> blanks_from board i = [].
Proof. intros Hi. unfold blanks_from. by replace (length board - i) with 0 by lia. Qed.

Lemma elem_of_moves board i : i ∈ Spec.moves board <-> board !! i = Some Blank.
Proof.
  unfold Spec.moves. rewrite list_elem_of_filter, elem_of_seq. split; [naive_solver|].
  intros H. split; [done|]. apply lookup_lt_Some in H. lia.
Qed.

Section MinimaxLoop.
Variable child : St (list cell) Z.
Variable mark : cell.
Variable maximizing : bool.
Variable board : list cell.
  (** The value the recursive call computes after the move at [j]. *)
Variable f : nat -> Z.
Hypothesis child_spec : forall j, board !! j = Some Blank ->
    child (<[j:=mark]> board) = Some (f j, <[j:=mark]> board).

Let step (best score : Z) : Z := if maximizing then Z.max best score else Z.min best score.

  (** The loop visits the blanks in ascending order, folds their values
      into [best_score], and hands the board back as it found it. *)
Lemma minimax_loop_spec k i best :
    length board <= i + k ->
    minimax_loop child mark maximizing k i best board
    = Some (fold_left step (map f (blanks_from board i)) best, board).
  Proof.
    revert i best. induction k as [|k IH]; intros i best Hk; simpl.
    - by rewrite blanks_from_end by lia.
    - unfold board_length, read, st_bind. simpl.
      destruct (Nat.ltb_spec i (length board)) as [Hi|Hi];
        [|by rewrite blanks_from_end by lia].
      rewrite blanks_from_step by done.
      case_decide as Hb; simpl.
      + unfold write. rewrite child_spec by done.
        rewrite list_insert_restore by done.
        rewrite IH by lia. f_equal. f_equal. unfold step.
        by destruct maximizing; autorewrite with ttt_rw.
      + by apply IH; lia.
  Qed.
End MinimaxLoop.

(** ** The reference unfolded *)

Lemma blanks_from_0 board : blanks_from board 0 = Spec.moves board.
Proof. unfold blanks_from, Spec.moves. by rewrite Nat.sub_0_r. Qed.

Lemma turn_mark_not_blank depth : Spec.turn_mark depth <> Blank.
Proof. unfold Spec.turn_mark. by destruct (Nat.even depth). Qed.

#[export] Hint Resolve turn_mark_not_blank : ttt.

Lemma game_value_terminal board depth :
  gameOver board = true -> Spec.game_value board depth = terminal_score board depth.
Proof.
  intros G. unfold Spec.game_value. destruct (blanks board); simpl; [done|]. by rewrite G.
Qed.

(** A running game has a blank left. *)
Lemma running_has_blank board : gameOver board = false -> 0 < blanks board.
Proof.
  intros G. destruct (blanks board) eqn:E; [|lia].
  assert (gameOver board = true) by (apply gameOver_iff; auto). congruence.
Qed.

(** The children's values, in the order of the moves. *)
Definition child_values (board : list cell) (depth : nat) : list Z :=
  map (fun i => Spec.game_value (<[i:=Spec.turn_mark depth]> board) (S depth)) (Spec.moves board).

Lemma game_value_step board depth :
  gameOver board = false ->
  Spec.game_value board depth =
  if Nat.even depth then fold_left Z.max (child_values board depth) (-20)%Z
  else fold_left Z.min (child_values board depth) 20%Z.
Proof.
  intros G. pose proof (running_has_blank board G) as Hb.
  unfold Spec.game_value at 1. destruct (blanks board) as [|n] eqn:E; [lia|]. simpl. rewrite G.
  unfold child_values.
  assert (map (fun i => Spec.value n (<[i:=Spec.turn_mark depth]> board) (S depth)) (Spec.moves board)
          = map (fun i => Spec.game_value (<[i:=Spec.turn_mark depth]> board) (S depth)) (Spec.moves board))
    as ->; [|done].
  apply map_ext_in. intros i Hi%list_elem_of_In%elem_of_moves.
  unfold Spec.game_value. destruct (blanks_insert board i (Spec.turn_mark depth) Hi (turn_mark_not_blank _)).
  f_equal. lia.
Qed.

(** ** Refinement *)

(** The in-place search on enough fuel. *)
Lemma minimax_correct fuel board depth :
  blanks board < fuel ->
  minimax fuel depth board = Some (Spec.game_value board depth, board).
Proof.
  revert board depth. induction fuel as [|fuel IH]; intros board depth Hf; [lia|].
  simpl. unfold st_get, st_bind, board_length. simpl.
  destruct (gameOver board) eqn:G; [by rewrite game_value_terminal|].
  rewrite game_value_step by done. unfold child_values, Spec.turn_mark.
  destruct (Nat.even depth);
    (erewrite minimax_loop_spec;
      [rewrite blanks_from_0; reflexivity
      |intros j Hj; apply IH; by eapply blanks_insert_lt
      |lia]).
Qed.

(** ** What the value means *)

Lemma elem_of_child_values board depth x :
  x ∈ child_values board depth <->
  exists i, board !! i = Some Blank /\ x = Spec.game_value (<[i:=Spec.turn_mark depth]> board) (S depth).
Proof.
  unfold child_values. rewrite list_elem_of_fmap.
  split; intros (i & ? & ?); exists i; rewrite elem_of_moves in *; naive_solver.
Qed.

Lemma child_values_nonempty board depth :
  gameOver board = false -> child_values board depth <> [].
Proof.
  intros G. pose proof (proj2 (blanks_pos board) (running_has_blank board G)) as [i Hi]%list_elem_of_lookup.
  assert (Spec.game_value (<[i:=Spec.turn_mark depth]> board) (S depth) ∈ child_values board depth) as Hin
    by (apply elem_of_child_values; eauto).
  intros E. rewrite E in Hin. by apply elem_of_nil in Hin.
Qed.

Lemma terminal_score_cases board depth :
  terminal_score board depth = (10 - Z.of_nat depth)%Z \/
  terminal_score board depth = (Z.of_nat depth - 10)%Z \/
  terminal_score board depth = 0%Z.
Proof. unfold terminal_score. repeat case_decide; auto. Qed.

(** With [D = depth + blanks], every score reachable below lies between
    [min 0 (10 - D) (depth - 10)] and [max 0 (10 - depth) (D - 10)], as
    long as the sentinels [-20]/[20] stay outside that range. *)
Lemma game_value_range n board depth :
  blanks board = n -> depth + n <= 30 ->
  (Z.min 0 (Z.min (10 - Z.of_nat (depth + n)) (Z.of_nat depth - 10))
   <= Spec.game_value board depth
   <= Z.max 0 (Z.max (10 - Z.of_nat depth) (Z.of_nat (depth + n) - 10)))%Z.
Proof.
  revert board depth. induction n as [|n IH]; intros board depth Hn HD.
  - assert (gameOver board = true) as G by (apply gameOver_iff; auto).
    rewrite game_value_terminal by done.
    destruct (terminal_score_cases board depth) as [->|[->| ->]]; lia.
  - destruct (gameOver board) eqn:G.
    { rewrite game_value_terminal by done.
      destruct (terminal_score_cases board depth) as [->|[->| ->]]; lia. }
    assert (forall x, x ∈ child_values board depth ->
      (Z.min 0 (Z.min (10 - Z.of_nat (depth + S n)) (Z.of_nat depth - 10)) <= x
       <= Z.max 0 (Z.max (10 - Z.of_nat depth) (Z.of_nat (depth + S n) - 10)))%Z) as Hch.
    { intros x (i & Hi & ->)%elem_of_child_values.
      destruct (blanks_insert board i _ Hi (turn_mark_not_blank depth)) as [Hb _].
      specialize (IH (<[i:=Spec.turn_mark depth]> board) (S depth) ltac:(lia) ltac:(lia)).
      replace (S depth + n) with (depth + S n) in IH by lia. lia. }
    pose proof (child_values_nonempty board depth G) as Hne.
    rewrite game_value_step by done. destruct (Nat.even depth).
    + apply Hch, fold_max_attained; [done|]. apply Forall_forall. intros x Hx%Hch. lia.
    + apply Hch, fold_min_attained; [done|]. apply Forall_forall. intros x Hx%Hch. lia.
Qed.

(** Below the sentinels, every child's value lies in [[-20, 20]]. *)
Lemma child_values_bounded board depth :
  gameOver board = false -> depth + blanks board <= 30 ->
  Forall (fun x => -20 <= x <= 20)%Z (child_values board depth).
Proof.
  intros G HD. apply Forall_forall. intros x (i & Hi & ->)%elem_of_child_values.
  destruct (blanks_insert board i _ Hi (turn_mark_not_blank depth)) as [Hb Hpos].
  pose proof (game_value_range (blanks board - 1) (<[i:=Spec.turn_mark depth]> board) (S depth)
                ltac:(done) ltac:(lia)).
  lia.
Qed.

Lemma game_value_minimax board depth :
  gameOver board = false -> depth + blanks board <= 30 ->
  (forall i, board !! i = Some Blank ->
     if Nat.even depth
     then (Spec.game_value (<[i:=Spec.turn_mark depth]> board) (S depth) <= Spec.game_value board depth)%Z
     else (Spec.game_value board depth <= Spec.game_value (<[i:=Spec.turn_mark depth]> board) (S depth))%Z) /\
  (exists i, board !! i = Some Blank /\
     Spec.game_value (<[i:=Spec.turn_mark depth]> board) (S depth) = Spec.game_value board depth).
Proof.
  intros G HD. pose proof (child_values_bounded board depth G HD) as Hb.
  pose proof (child_values_nonempty board depth G) as Hne.
  assert (forall i, board !! i = Some Blank ->
    Spec.game_value (<[i:=Spec.turn_mark depth]> board) (S depth) ∈ child_values board depth) as Hin
    by (intros i Hi; apply elem_of_child_values; eauto).
  rewrite game_value_step by done. destruct (Nat.even depth); split.
  - intros i Hi. by apply fold_max_ge, Hin.
  - destruct (proj1 (elem_of_child_values _ _ _) (fold_max_attained _ (-20)%Z Hne
      ltac:(eapply Forall_impl; [exact Hb|]; simpl; lia))) as (i & Hi & E).
    eauto.
  - intros i Hi. by apply fold_min_le, Hin.
  - destruct (proj1 (elem_of_child_values _ _ _) (fold_min_attained _ 20%Z Hne
      ltac:(eapply Forall_impl; [exact Hb|]; simpl; lia))) as (i & Hi & E).
    eauto.
Qed.

(** In a running real game the value lies strictly between [depth - 10]
    and [10 - depth], the scores of a win completed by the last move: every
    line still to be completed is completed later, at a higher depth. *)
Lemma game_value_running_range board depth :
  gameOver board = false -> depth + blanks board <= 9 ->
  (Z.of_nat depth - 10 < Spec.game_value board depth < 10 - Z.of_nat depth)%Z.
Proof.
  intros G HD. pose proof (running_has_blank board G).
  destruct (game_value_minimax board depth G ltac:(lia)) as [_ (i & Hi & E)].
  destruct (blanks_insert board i _ Hi (turn_mark_not_blank depth)) as [Hb _].
  pose proof (game_value_range _ (<[i:=Spec.turn_mark depth]> board) (S depth) Hb ltac:(lia)).
  lia.
Qed.

(** Without a line of ["X"] on the board the value stays below [10 - depth]. *)
Lemma game_value_no_x_line board depth :
  depth + blanks board <= 9 -> depth < 10 -> ~ has_line MarkX board ->
  (Spec.game_value board depth < 10 - Z.of_nat depth)%Z.
Proof.
  intros HD Hd HX. destruct (gameOver board) eqn:G.
  - rewrite game_value_terminal by done. pose proof (checkWinner_verdict board) as V.
    unfold terminal_score. case_decide as Hw; [by rewrite Hw in V|]. case_decide; lia.
  - by apply game_value_running_range.
Qed.

Lemma blanks_le_length board : blanks board <= length board.
Proof. apply length_filter. Qed.

(** The call [minimax(board, depth)] made with [S (length board)] fuel
    always returns, leaves the board unchanged, and computes the reference. *)
Lemma minimax_run_spec board depth :
  minimax_run board depth = Some (Spec.game_value board depth, board).
Proof. apply minimax_correct. pose proof (blanks_le_length board). lia. Qed.

(** ** Properties *)

(** C1: with fuel above the number of blanks, the in-place [minimax]
    terminates, hands the array back exactly as it received it, and returns
    the value of the copy-based reference. *)
Theorem minimax_refines fuel board depth :
  blanks board < fuel ->
  minimax fuel depth board = Some (Spec.game_value board depth, board).
Proof. apply minimax_correct. Qed.

(** C2: on a running position [minimax] returns the best of the values
    it returns on the children for the player to move (no child above it
    at even depth, none below it at odd depth), and some legal move's child
    has exactly that value; every call returns and restores its array. *)
Theorem minimax_is_minimax board depth :
  gameOver board = false -> depth + blanks board <= 30 ->
  exists v, minimax_run board depth = Some (v, board) /\
    (forall i, board !! i = Some Blank -> exists vi,
       minimax_run (<[i:=Spec.turn_mark depth]> board) (S depth)
         = Some (vi, <[i:=Spec.turn_mark depth]> board) /\
       (if Nat.even depth then (vi <= v)%Z else (v <= vi)%Z)) /\
    (exists i, board !! i = Some Blank /\
       minimax_run (<[i:=Spec.turn_mark depth]> board) (S depth)
         = Some (v, <[i:=Spec.turn_mark depth]> board)).
Proof.
  intros G HD. destruct (game_value_minimax board depth G HD) as [Hall (i & Hi & E)].
  exists (Spec.game_value board depth). split; [apply minimax_run_spec|]. split.
  - intros j Hj. eexists. split; [apply minimax_run_spec|]. by apply Hall.
  - exists i. split; [done|]. rewrite <- E. apply minimax_run_spec.
Qed.

(** C17: in a real game ([depth] marks played, [depth + blanks <= 9]) the
    call returns a score in [[-10, 10]] and leaves the board as it was. *)
Theorem minimax_run_bounds board depth :
  depth + blanks board <= 9 ->
  exists v, minimax_run board depth = Some (v, board) /\ (-10 <= v <= 10)%Z.
Proof.
  intros HD. exists (Spec.game_value board depth). split; [apply minimax_run_spec|].
  pose proof (game_value_range (blanks board) board depth eq_refl ltac:(lia)). lia.
Qed.

(** ** Witnesses *)

Lemma minimax_refines_witness :
  blanks [MarkX; MarkX; Blank; MarkO; MarkO; Blank; Blank; Blank; Blank] < 6 /\
  minimax 6 4 [MarkX; MarkX; Blank; MarkO; MarkO; Blank; Blank; Blank; Blank]
  = Some (Spec.game_value [MarkX; MarkX; Blank; MarkO; MarkO; Blank; Blank; Blank; Blank] 4,
          [MarkX; MarkX; Blank; MarkO; MarkO; Blank; Blank; Blank; Blank]).
Proof. split; [vm_compute; lia|]. apply minimax_refines. vm_compute. lia. Defined.

Lemma minimax_is_minimax_witness :
  gameOver [Blank; Blank; Blank; Blank; MarkX; Blank; Blank; MarkO; MarkX] = false /\
  3 + blanks [Blank; Blank; Blank; Blank; MarkX; Blank; Blank; MarkO; MarkX] <= 30 /\
  exists v, minimax_run [Blank; Blank; Blank; Blank; MarkX; Blank; Blank; MarkO; MarkX] 3
              = Some (v, [Blank; Blank; Blank; Blank; MarkX; Blank; Blank; MarkO; MarkX]) /\
    (forall i, [Blank; Blank; Blank; Blank; MarkX; Blank; Blank; MarkO; MarkX] !! i = Some Blank -> exists vi,
       minimax_run (<[i:=Spec.turn_mark 3]> [Blank; Blank; Blank; Blank; MarkX; Blank; Blank; MarkO; MarkX]) 4
         = Some (vi, <[i:=Spec.turn_mark 3]> [Blank; Blank; Blank; Blank; MarkX; Blank; Blank; MarkO; MarkX]) /\
       (if Nat.even 3 then (vi <= v)%Z else (v <= vi)%Z)) /\
    (exists i, [Blank; Blank; Blank; Blank; MarkX; Blank; Blank; MarkO; MarkX] !! i = Some Blank /\
       minimax_run (<[i:=Spec.turn_mark 3]> [Blank; Blank; Blank; Blank; MarkX; Blank; Blank; MarkO; MarkX]) 4
         = Some (v, <[i:=Spec.turn_mark 3]> [Blank; Blank; Blank; Blank; MarkX; Blank; Blank; MarkO; MarkX])).
Proof.
  split; [vm_compute; reflexivity|]. split; [vm_compute; lia|].
  apply minimax_is_minimax; [vm_compute; reflexivity|vm_compute; lia].
Defined.

Lemma minimax_run_bounds_witness :
  4 + blanks [MarkX; MarkX; Blank; MarkO; MarkO; Blank; Blank; Blank; Blank] <= 9 /\
  exists v, minimax_run [MarkX; MarkX; Blank; MarkO; MarkO; Blank; Blank; Blank; Blank] 4
            = Some (v, [MarkX; MarkX; Blank; MarkO; MarkO; Blank; Blank; Blank; Blank]) /\ (-10 <= v <= 10)%Z.
Proof. split; [vm_compute; lia|]. apply minimax_run_bounds. vm_compute. lia. Defined.
