(* ===== verification/BestMove.v ===== *)
(** * The bot's move: [bestMove] (src/src/Game.js, lines 92-108)

    [bestMove] tries ["O"] on every blank of the shared array in ascending
    order, scores it with [minimax(board, depth + 1)], undoes the move, and
    keeps the first move of minimum score ([score < best_score], strict).
    [best_score] starts at [Infinity] ([zinf]) and [best_move] at
    [undefined] ([None]), which is also what it returns on a full board.

    The theorems: the call terminates and restores the array; it returns
    [None] exactly on a board without blanks; otherwise a blank whose score
    is minimal and that precedes every other minimal blank; at odd depth on
    a running game that score is the minimax value of the position; when
    a blank completes a line of ["O"], the move is the first such blank;
    when none does and ["X"] threatens at one blank only, the move blocks
    it. *)

From stdpp Require Import base list.
From Stdlib Require Import ZArith.
From S2P Require Import Prelude Board Minimax.

(** ** The code *)

(** Lines 96-106; [fuel] is the fuel of the [minimax] calls. *)
Fixpoint bestMove_loop (fuel depth : nat) (k i : nat) (best_score : zinf) (best_move : option nat)
    : St (list cell) (option nat) :=
  match k with
  | 0 => st_ret best_move
  | S k' =>
      let* len := board_length in
      if Nat.ltb i len then
        let* c := read i in
        if decide (c = Some Blank) then
          let* _ := write i MarkO in
          let* score := minimax fuel (S depth) in
          let* _ := write i Blank in
          if (score <? ∞ best_score)
          then bestMove_loop fuel depth k' (S i) (Fin score) (Some i)
          else bestMove_loop fuel depth k' (S i) best_score best_move
        else bestMove_loop fuel depth k' (S i) best_score best_move
      else st_ret best_move
  end.

(** Lines 92-108: [best_score = Infinity], [best_move] undefined. *)
Definition bestMove (depth : nat) : St (list cell) (option nat) :=
  let* len := board_length in
  bestMove_loop (S len) depth len 0 Infinity None.

(** ** The loop invariant *)

(** The score [bestMove] gives to the move at [j]: the value of the board
    with ["O"] at [j], one ply deeper. *)
Definition move_score (board : list cell) (depth j : nat) : Z :=
  Spec.game_value (<[j:=MarkO]> board) (S depth).

Section BestMoveLoop.
Variable board : list cell.
Variable depth : nat.

Local Abbreviation score := (move_score board depth).

  (** After the indices below [i]: [best_move] is the first blank of
      least score among them and [best_score] its score, or there was no
      blank and both still hold their initial values. *)
Definition first_argmin_below (i : nat) (bs : zinf) (bm : option nat) : Prop :=
    match bm with
    | None => bs = Infinity /\ forall j, j < i -> board !! j <> Some Blank
    | Some m => m < i /\ board !! m = Some Blank /\ bs = Fin (score m) /\
        forall j, j < i -> board !! j = Some Blank ->
          (score m <= score j)%Z /\ (j < m -> (score m < score j)%Z)
    end.

Lemma first_argmin_below_0 : first_argmin_below 0 Infinity None.
  Proof. split; [done|lia]. Qed.

Lemma first_argmin_below_skip i bs bm :
    board !! i <> Some Blank -> first_argmin_below i bs bm -> first_argmin_below (S i) bs bm.
  Proof.
    intros Hi. destruct bm as [m|]; simpl.
    - intros (? & ? & ? & Hall). split; [lia|]. do 2 (split; [done|]).
      intros j Hj Hb. destruct (decide (j = i)) as [->|]; [done|]. apply Hall; [lia|done].
    - intros [? Hall]. split; [done|]. intros j Hj. destruct (decide (j = i)) as [->|]; [done|]. apply Hall. lia.
  Qed.

Lemma first_argmin_below_take i bs bm :
    board !! i = Some Blank -> (score i <? ∞ bs) = true ->
    first_argmin_below i bs bm -> first_argmin_below (S i) (Fin (score i)) (Some i).
  Proof.
    intros Hi Hlt Hinv. split; [lia|]. do 2 (split; [done|]).
    intros j Hj Hb. destruct (decide (j = i)) as [->|]; [lia|].
    destruct bm as [m|]; simpl in Hinv.
    - destruct Hinv as (_ & _ & -> & Hall). simpl in Hlt. apply Z.ltb_lt in Hlt.
      destruct (Hall j ltac:(lia) Hb). lia.
    - destruct Hinv as [_ Hall]. by destruct (Hall j ltac:(lia)).
  Qed.

Lemma first_argmin_below_keep i bs bm :
    board !! i = Some Blank -> (score i <? ∞ bs) = false ->
    first_argmin_below i bs bm -> first_argmin_below (S i) bs bm.
  Proof.
    intros Hi Hlt Hinv. destruct bm as [m|]; simpl in Hinv |- *.
    - destruct Hinv as (Hm & Hmb & -> & Hall). simpl in Hlt. apply Z.ltb_ge in Hlt.
      split; [lia|]. do 2 (split; [done|]).
      intros j Hj Hb. destruct (decide (j = i)) as [->|]; [split; lia|]. apply Hall; [lia|done].
    - destruct Hinv as [-> _]. done.
  Qed.

  (** Indices at or above [board.length] hold no blank. *)
Lemma first_argmin_below_end i bs bm :
    length board <= i -> first_argmin_below i bs bm -> first_argmin_below (length board) bs bm.
  Proof.
    intros Hi. destruct bm as [m|]; simpl.
    - intros (_ & Hm & ? & Hall). split; [by eapply lookup_lt_Some|]. do 2 (split; [done|]).
      intros j Hj Hb. apply Hall; [lia|done].
    - intros [? Hall]. split; [done|]. intros j Hj. apply Hall. lia.
  Qed.

  (** The loop of lines 96-106 from index [i], its [minimax] calls given
      enough fuel: it returns and restores the array, and the invariant
      holds of the whole board at the end. *)
Lemma bestMove_loop_spec fuel k i bs bm :
    blanks board < fuel -> length board <= i + k ->
    first_argmin_below i bs bm ->
    exists bs' r, bestMove_loop fuel depth k i bs bm board = Some (r, board) /\
                  first_argmin_below (length board) bs' r.
  Proof.
    intros Hf. revert i bs bm. induction k as [|k IH]; intros i bs bm Hk Hinv; simpl.
    - exists bs, bm. split; [done|]. apply (first_argmin_below_end i); [lia|done].
    - unfold board_length, read, st_bind. simpl.
      destruct (Nat.ltb_spec i (length board)) as [Hi|Hi];
        [|exists bs, bm; split; [done|]; apply (first_argmin_below_end i); [lia|done]].
      case_decide as Hb; simpl.
      + unfold write. rewrite minimax_correct
          by (destruct (blanks_insert board i MarkO Hb ltac:(done)); lia).
        rewrite list_insert_restore by done.
        destruct (zinf_lt _ bs) eqn:Hlt.
        * apply IH; [lia|]. by apply (first_argmin_below_take i bs bm).
        * apply IH; [lia|]. by apply first_argmin_below_keep.
      + apply IH; [lia|]. by apply first_argmin_below_skip.
  Qed.
End BestMoveLoop.

Lemma bestMove_result board depth :
  exists bs r, bestMove depth board = Some (r, board) /\
               first_argmin_below board depth (length board) bs r.
Proof.
  unfold bestMove, board_length, st_bind. simpl.
  apply bestMove_loop_spec; [pose proof (blanks_le_length board); lia|lia|].
  apply first_argmin_below_0.
Qed.

(** The lowest score a move of ["O"] can get is [depth + 1 - 10], and it
    gets it exactly when it completes a line of ["O"]. *)
Lemma move_score_floor board depth j :
  board !! j = Some Blank -> depth + blanks board <= 9 ->
  (Z.of_nat (S depth) - 10 <= move_score board depth j)%Z /\
  (move_score board depth j = Z.of_nat (S depth) - 10 <-> checkWinner (<[j:=MarkO]> board) = Some WinO)%Z.
Proof.
  intros Hj HD. destruct (blanks_insert board j MarkO Hj ltac:(done)) as [Hb Hpos].
  unfold move_score. destruct (gameOver (<[j:=MarkO]> board)) eqn:G.
  - rewrite game_value_terminal by done. unfold terminal_score.
    repeat case_decide; split; try split; intros; try congruence; lia.
  - pose proof (game_value_running_range _ (S depth) G ltac:(lia)).
    split; [lia|]. split; [lia|]. intros Hw. rewrite gameOver_truthy, Hw in G. done.
Qed.

(** After ["O"] takes the only cell where ["X"] would complete a line, and
    takes no line itself, ["X"] completes no line on its next move: the
    score stays below [10 - (depth + 2)]. *)
Lemma move_score_block board depth t :
  Nat.even depth = false -> depth + blanks board <= 9 -> depth <= 7 -> gameOver board = false ->
  board !! t = Some Blank ->
  (forall c, board !! c = Some Blank -> c <> t -> ~ has_line MarkX (<[c:=MarkX]> board)) ->
  (forall j, board !! j = Some Blank -> ~ has_line MarkO (<[j:=MarkO]> board)) ->
  (move_score board depth t < 10 - Z.of_nat (S (S depth)))%Z.
Proof.
  intros Hodd HD Hd G Ht HXc HOj. unfold move_score.
  destruct (blanks_insert board t MarkO Ht ltac:(done)) as [Hb _].
  assert (~ has_line MarkX (<[t:=MarkO]> board)) as HX.
  { intros Hl%has_line_insert_other; [|done]. rewrite <- not_true_iff_false, gameOver_iff in G. tauto. }
  destruct (gameOver (<[t:=MarkO]> board)) eqn:G'.
  - rewrite game_value_terminal by done. pose proof (checkWinner_verdict (<[t:=MarkO]> board)) as V.
    pose proof (HOj t Ht). unfold terminal_score.
    destruct (checkWinner (<[t:=MarkO]> board)) as [[| |]|]; try done;
      rewrite !decide_False by done; lia.
  - destruct (game_value_minimax _ (S depth) G' ltac:(lia)) as [_ (i & Hi & <-)].
    unfold Spec.turn_mark. rewrite even_S, Hodd. simpl.
    pose proof (running_has_blank _ G').
    destruct (blanks_insert _ i MarkX Hi ltac:(done)) as [Hb' _].
    apply list_lookup_insert_Some in Hi as [(_ & ? & _)|[Hit Hi]]; [done|].
    apply game_value_no_x_line; [lia|lia|].
    rewrite list_insert_insert_ne by done. intros Hl%has_line_insert_other; [|done].
    by apply (HXc i).
Qed.

(** A move of ["O"] that leaves the threat of ["X"] open, and takes no
    line itself, lets ["X"] win on its next move: the score is at least
    [10 - (depth + 2)]. *)
Lemma move_score_unblocked board depth t m :
  Nat.even depth = false -> depth + blanks board <= 9 -> gameOver board = false ->
  board !! t = Some Blank -> has_line MarkX (<[t:=MarkX]> board) ->
  board !! m = Some Blank -> m <> t -> ~ has_line MarkO (<[m:=MarkO]> board) ->
  (10 - Z.of_nat (S (S depth)) <= move_score board depth m)%Z.
Proof.
  intros Hodd HD G Ht HXt Hm Hmt HO. unfold move_score.
  destruct (blanks_insert board m MarkO Hm ltac:(done)) as [Hb _].
  assert (<[m:=MarkO]> board !! t = Some Blank) as Ht' by (rewrite list_lookup_insert_ne; auto).
  assert (gameOver (<[m:=MarkO]> board) = false) as G'.
  { apply not_true_iff_false. rewrite gameOver_iff. intros [Hl|[Hl|Hl]].
    - apply has_line_insert_other in Hl; [|done].
      rewrite <- not_true_iff_false, gameOver_iff in G. tauto.
    - done.
    - pose proof (proj1 (blanks_pos _) ltac:(by eapply list_elem_of_lookup_2)). lia. }
  destruct (game_value_minimax _ (S depth) G' ltac:(lia)) as [Hall _].
  specialize (Hall t Ht'). unfold Spec.turn_mark in *. rewrite even_S, Hodd in *. simpl in *.
  assert (has_line MarkX (<[t:=MarkX]> (<[m:=MarkO]> board))) as HXC.
  { rewrite list_insert_insert_ne by done.
    apply has_line_insert; [done|by rewrite list_lookup_insert_ne|done]. }
  assert (~ has_line MarkO (<[t:=MarkX]> (<[m:=MarkO]> board))) as HOC
    by (intros Hl%has_line_insert_other; [done|done]).
  rewrite game_value_terminal in Hall by (apply gameOver_iff; auto).
  unfold terminal_score in Hall. rewrite decide_True in Hall by (by apply checkWinner_X). lia.
Qed.

(** ** Properties *)

Lemma bestMove_none_iff board depth :
  exists r, bestMove depth board = Some (r, board) /\ (r = None <-> blanks board = 0).
Proof.
  destruct (bestMove_result board depth) as (bs & r & Hrun & Hinv).
  exists r. split; [done|]. destruct r as [m|]; simpl in Hinv.
  - destruct Hinv as (_ & Hm & _). split; [done|].
    intros Hb. assert (0 < blanks board); [|lia].
    apply blanks_pos. by eapply list_elem_of_lookup_2.
  - destruct Hinv as [_ Hall]. split; [intros _|done].
    destruct (blanks board) eqn:E; [done|]. exfalso.
    pose proof (proj2 (blanks_pos board) ltac:(lia)) as [j Hj]%list_elem_of_lookup.
    apply (Hall j); [by eapply lookup_lt_Some|done].
Qed.

Lemma bestMove_argmin board depth i board' :
  bestMove depth board = Some (Some i, board') ->
  board' = board /\ board !! i = Some Blank /\
  (forall j, board !! j = Some Blank -> (move_score board depth i <= move_score board depth j)%Z) /\
  (forall j, board !! j = Some Blank -> j < i -> (move_score board depth i < move_score board depth j)%Z).
Proof.
  intros Hrun. destruct (bestMove_result board depth) as (bs & r & Hrun' & Hinv).
  rewrite Hrun in Hrun'. injection Hrun' as <- ->. simpl in Hinv.
  destruct Hinv as (_ & Hi & _ & Hall). do 2 (split; [done|]).
  split; intros j Hj; destruct (Hall j ltac:(by eapply lookup_lt_Some) Hj); auto.
Qed.

(** C7: [bestMove] always returns, hands the array back unchanged, and
    returns [undefined] exactly when the board has no blank. *)
Theorem bestMove_total board depth :
  exists r, bestMove depth board = Some (r, board) /\ (r = None <-> blanks board = 0).
Proof. apply bestMove_none_iff. Qed.

(** C5: the returned cell is blank, no blank has a lower score, and every
    blank before it has a strictly higher score: the first optimal move
    in ascending index order (the strict [<] of line 101). *)
Theorem bestMove_first_optimal board depth i board' :
  bestMove depth board = Some (Some i, board') ->
  board' = board /\ board !! i = Some Blank /\
  (forall j, board !! j = Some Blank -> (move_score board depth i <= move_score board depth j)%Z) /\
  (forall j, board !! j = Some Blank -> j < i -> (move_score board depth i < move_score board depth j)%Z).
Proof. apply bestMove_argmin. Qed.

Lemma bestMove_attains board depth i board' :
  Nat.even depth = false -> gameOver board = false -> depth + blanks board <= 30 ->
  bestMove depth board = Some (Some i, board') ->
  move_score board depth i = Spec.game_value board depth.
Proof.
  intros Hodd G HD Hrun.
  destruct (bestMove_argmin board depth i board' Hrun) as (_ & Hi & Hmin & _).
  destruct (game_value_minimax board depth G HD) as [Hall (i0 & Hi0 & E)].
  specialize (Hall i Hi). specialize (Hmin i0 Hi0).
  unfold Spec.turn_mark in *. rewrite Hodd in Hall, E.
  unfold move_score in *. lia.
Qed.

(** C6: when the bot moves in a running game at odd depth, the move it
    picks reaches the minimax value of the position. *)
Theorem bestMove_attains_value board depth i board' :
  Nat.even depth = false -> gameOver board = false -> depth + blanks board <= 30 ->
  bestMove depth board = Some (Some i, board') ->
  move_score board depth i = Spec.game_value board depth.
Proof. apply bestMove_attains. Qed.

(** C14: the bot wins at once when it can, and with the first winning
    cell: if some blank completes a line of ["O"], [bestMove] returns a
    cell, it completes a line of ["O"], and no blank before it does.  The
    score [depth - 10] of line 54 makes a win now better than any win
    later. *)
Theorem bestMove_takes_first_win board depth j :
  depth + blanks board <= 9 -> board !! j = Some Blank ->
  checkWinner (<[j:=MarkO]> board) = Some WinO ->
  exists i, bestMove depth board = Some (Some i, board) /\
    checkWinner (<[i:=MarkO]> board) = Some WinO /\
    forall k, k < i -> board !! k = Some Blank -> checkWinner (<[k:=MarkO]> board) <> Some WinO.
Proof.
  intros HD Hj Hw. destruct (bestMove_none_iff board depth) as ([i|] & Hrun & Hn).
  - destruct (bestMove_argmin board depth i board Hrun) as (_ & Hi & Hmin & Hfirst).
    destruct (move_score_floor board depth j Hj HD) as [_ [_ Ej]].
    destruct (move_score_floor board depth i Hi HD) as [Li [Ei _]].
    specialize (Ej Hw). specialize (Hmin j Hj).
    exists i. split; [done|]. split; [apply Ei; lia|].
    intros k Hk Hkb Hwk. specialize (Hfirst k Hkb Hk).
    destruct (move_score_floor board depth k Hkb HD) as [_ [_ Ek]]. specialize (Ek Hwk). lia.
  - pose proof (proj1 (blanks_pos board) ltac:(by eapply list_elem_of_lookup_2)).
    destruct Hn as [Hn _]. specialize (Hn eq_refl). lia.
Qed.

(** C15: the bot blocks a single threat: at its turn (odd [depth]) in a
    real game, when no blank completes a line of ["O"] and [t] is the only
    blank where ["X"] would complete a line, [bestMove] plays [t]. *)
Theorem bestMove_blocks_single_threat board depth t :
  Nat.even depth = false -> depth + blanks board <= 9 -> gameOver board = false ->
  board !! t = Some Blank -> has_line MarkX (<[t:=MarkX]> board) ->
  (forall c, board !! c = Some Blank -> c <> t -> ~ has_line MarkX (<[c:=MarkX]> board)) ->
  (forall j, board !! j = Some Blank -> ~ has_line MarkO (<[j:=MarkO]> board)) ->
  bestMove depth board = Some (Some t, board).
Proof.
  intros Hodd HD G Ht HXt HXc HOj. destruct (bestMove_none_iff board depth) as ([i|] & Hrun & Hn).
  - destruct (bestMove_argmin board depth i board Hrun) as (_ & Hi & Hmin & _).
    destruct (decide (i = t)) as [->|Hit]; [done|]. exfalso.
    destruct (blanks_insert board i MarkO Hi ltac:(done)) as [Hb _].
    assert (<[i:=MarkO]> board !! t = Some Blank) as Ht' by (rewrite list_lookup_insert_ne; auto).
    pose proof (proj1 (blanks_pos _) ltac:(by eapply list_elem_of_lookup_2 in Ht')).
    pose proof (move_score_block board depth t Hodd HD ltac:(lia) G Ht HXc HOj).
    pose proof (move_score_unblocked board depth t i Hodd HD G Ht HXt Hi Hit (HOj i Hi)).
    specialize (Hmin t Ht). lia.
  - pose proof (proj1 (blanks_pos board) ltac:(by eapply list_elem_of_lookup_2)).
    destruct Hn as [Hn _]. specialize (Hn eq_refl). lia.
Qed.

(** ** Witnesses *)

Lemma bestMove_first_optimal_witness :
  bestMove 1 [MarkX; Blank; Blank; Blank; MarkX; Blank; Blank; Blank; Blank]
  = Some (Some 8, [MarkX; Blank; Blank; Blank; MarkX; Blank; Blank; Blank; Blank]) /\
  [MarkX; Blank; Blank; Blank; MarkX; Blank; Blank; Blank; Blank] !! 8 = Some Blank.
Proof.
  assert (H : bestMove 1 [MarkX; Blank; Blank; Blank; MarkX; Blank; Blank; Blank; Blank]
    = Some (Some 8, [MarkX; Blank; Blank; Blank; MarkX; Blank; Blank; Blank; Blank]))
    by (vm_compute; reflexivity).
  split; [exact H|]. apply (bestMove_first_optimal _ _ _ _ H).
Defined.

Lemma bestMove_attains_value_witness :
  Nat.even 3 = false /\
  gameOver [MarkX; Blank; Blank; Blank; MarkO; Blank; Blank; Blank; MarkX] = false /\
  3 + blanks [MarkX; Blank; Blank; Blank; MarkO; Blank; Blank; Blank; MarkX] <= 30 /\
  move_score [MarkX; Blank; Blank; Blank; MarkO; Blank; Blank; Blank; MarkX] 3 1
  = Spec.game_value [MarkX; Blank; Blank; Blank; MarkO; Blank; Blank; Blank; MarkX] 3.
Proof.
  split; [reflexivity|]. split; [vm_compute; reflexivity|]. split; [vm_compute; lia|].
  apply (bestMove_attains_value _ 3 1 [MarkX; Blank; Blank; Blank; MarkO; Blank; Blank; Blank; MarkX]);
    [reflexivity|vm_compute; reflexivity|vm_compute; lia|vm_compute; reflexivity].
Defined.

Lemma bestMove_takes_first_win_witness :
  5 + blanks [MarkX; MarkX; Blank; MarkO; MarkO; Blank; MarkX; Blank; Blank] <= 9 /\
  [MarkX; MarkX; Blank; MarkO; MarkO; Blank; MarkX; Blank; Blank] !! 5 = Some Blank /\
  checkWinner (<[5:=MarkO]> [MarkX; MarkX; Blank; MarkO; MarkO; Blank; MarkX; Blank; Blank]) = Some WinO /\
  exists i, bestMove 5 [MarkX; MarkX; Blank; MarkO; MarkO; Blank; MarkX; Blank; Blank]
            = Some (Some i, [MarkX; MarkX; Blank; MarkO; MarkO; Blank; MarkX; Blank; Blank]) /\
    checkWinner (<[i:=MarkO]> [MarkX; MarkX; Blank; MarkO; MarkO; Blank; MarkX; Blank; Blank]) = Some WinO /\
    forall k, k < i -> [MarkX; MarkX; Blank; MarkO; MarkO; Blank; MarkX; Blank; Blank] !! k = Some Blank ->
      checkWinner (<[k:=MarkO]> [MarkX; MarkX; Blank; MarkO; MarkO; Blank; MarkX; Blank; Blank]) <> Some WinO.
Proof.
  split; [vm_compute; lia|]. split; [reflexivity|]. split; [vm_compute; reflexivity|].
  apply (bestMove_takes_first_win _ 5 5); [vm_compute; lia|reflexivity|vm_compute; reflexivity].
Defined.

Lemma bestMove_blocks_single_threat_witness :
  Nat.even 3 = false /\ 3 + blanks [MarkX; MarkX; Blank; Blank; MarkO; Blank; Blank; Blank; Blank] <= 9 /\ gameOver [MarkX; MarkX; Blank; Blank; MarkO; Blank; Blank; Blank; Blank] = false /\
  [MarkX; MarkX; Blank; Blank; MarkO; Blank; Blank; Blank; Blank] !! 2 = Some Blank /\ has_line MarkX (<[2:=MarkX]> [MarkX; MarkX; Blank; Blank; MarkO; Blank; Blank; Blank; Blank]) /\
  (forall c, [MarkX; MarkX; Blank; Blank; MarkO; Blank; Blank; Blank; Blank] !! c = Some Blank -> c <> 2 -> ~ has_line MarkX (<[c:=MarkX]> [MarkX; MarkX; Blank; Blank; MarkO; Blank; Blank; Blank; Blank])) /\
  (forall j, [MarkX; MarkX; Blank; Blank; MarkO; Blank; Blank; Blank; Blank] !! j = Some Blank -> ~ has_line MarkO (<[j:=MarkO]> [MarkX; MarkX; Blank; Blank; MarkO; Blank; Blank; Blank; Blank])) /\
  bestMove 3 [MarkX; MarkX; Blank; Blank; MarkO; Blank; Blank; Blank; Blank] = Some (Some 2, [MarkX; MarkX; Blank; Blank; MarkO; Blank; Blank; Blank; Blank]).
Proof.
  assert (forall c, [MarkX; MarkX; Blank; Blank; MarkO; Blank; Blank; Blank; Blank] !! c = Some Blank -> c <> 2 -> ~ has_line MarkX (<[c:=MarkX]> [MarkX; MarkX; Blank; Blank; MarkO; Blank; Blank; Blank; Blank])) as HX.
  { intros c Hc Hne. do 9 (destruct c as [|c];
      [first [vm_compute in Hc; discriminate Hc | congruence
             | apply (bool_decide_eq_false_1 _); vm_compute; reflexivity]|]).
    vm_compute in Hc. discriminate Hc. }
  assert (forall j, [MarkX; MarkX; Blank; Blank; MarkO; Blank; Blank; Blank; Blank] !! j = Some Blank -> ~ has_line MarkO (<[j:=MarkO]> [MarkX; MarkX; Blank; Blank; MarkO; Blank; Blank; Blank; Blank])) as HO.
  { intros j Hj. do 9 (destruct j as [|j];
      [first [vm_compute in Hj; discriminate Hj
             | apply (bool_decide_eq_false_1 _); vm_compute; reflexivity]|]).
    vm_compute in Hj. discriminate Hj. }
  assert (has_line MarkX (<[2:=MarkX]> [MarkX; MarkX; Blank; Blank; MarkO; Blank; Blank; Blank; Blank])) as Ht by (apply (bool_decide_eq_true_1 _); vm_compute; reflexivity).
  do 7 (split; [first [reflexivity | vm_compute; lia | exact Ht | exact HX | exact HO]|]).
  apply (bestMove_blocks_single_threat _ 3 2); [reflexivity|vm_compute; lia|reflexivity|reflexivity|exact Ht|exact HX|exact HO].
Defined.
