(* ===== verification/DepthShift.v ===== *)
(** * Where the search starts counting plies (src/src/Game.js, lines 49-59, 92-108)

    The terminal scores [10 - depth] and [depth - 10] of [minimax] depend
    on the absolute [depth] the controller passes (the number of marks on
    the board), not on the ply since the start of the search.  The spec
    (section 9) says this changes the magnitude of the scores but not the
    moves.  This file makes that precise: starting the search [2 * k]
    plies later maps every value [v] to [shift_score k v] (a win is worth
    [2 * k] less, a loss [2 * k] less bad, a draw stays [0]), and the map is
    order-preserving on the values a game can produce as long as
    [depth + 2 * k + blanks <= 9].  So [bestMove] makes the same choice.

    Both conditions are needed: an odd shift changes whose turn the search
    believes it is ([Spec.turn_mark]), and beyond nine plies a late win of
    ["X"] scores [<= 0] and looks like a draw (on [[X,_,_,_,X,_,_,_,_]]
    the bot blocks at 8 for [depth] 1 to 7 but plays 1 at [depth] 9).  In
    the game itself [depth + blanks = 9] ([Game.reachable_turn_discipline])
    and the bot moves at odd [depth], so every call the controller makes
    chooses the move the search from ply 1 chooses. *)

From stdpp Require Import base list.
From Stdlib Require Import ZArith.
From S2P Require Import Prelude Board Minimax BestMove.

(** The value of a position when the search starts [2 * k] plies later. *)
Definition shift_score (k : nat) (v : Z) : Z :=
  if Z.ltb 0 v then v - 2 * Z.of_nat k
  else if Z.ltb v 0 then v + 2 * Z.of_nat k
  else 0.

(** The scores a game of [D] plies in all can produce: [0], or a win
    completed at some ply [<= D]. *)
Definition score_gap (D : nat) (v : Z) : Prop :=
  v = 0%Z \/ (10 - Z.of_nat D <= v)%Z \/ (v <= Z.of_nat D - 10)%Z.

Lemma shift_score_mono k D u v :
  D + 2 * k <= 9 -> score_gap D u -> score_gap D v ->
  (u <= v <-> shift_score k u <= shift_score k v)%Z.
Proof.
  unfold score_gap, shift_score. intros HD Hu Hv.
  destruct (Z.ltb_spec 0 u), (Z.ltb_spec u 0), (Z.ltb_spec 0 v), (Z.ltb_spec v 0); lia.
Qed.

Lemma terminal_score_shift board depth k :
  depth + 2 * k <= 9 ->
  terminal_score board (depth + 2 * k) = shift_score k (terminal_score board depth).
Proof.
  intros Hd. unfold terminal_score, shift_score.
  repeat case_decide;
    repeat match goal with |- context [Z.ltb ?a ?b] => destruct (Z.ltb_spec a b) end; lia.
Qed.

(** [depth + blanks] is the same for a position and its children, so every
    value below a position lies in the same gap. *)
Lemma game_value_gap n board depth :
  blanks board = n -> depth + n <= 9 -> score_gap (depth + n) (Spec.game_value board depth).
Proof.
  unfold score_gap. revert board depth. induction n as [|n IH]; intros board depth Hn HD.
  - assert (gameOver board = true) as G by (apply gameOver_iff; auto).
    rewrite game_value_terminal by done.
    destruct (terminal_score_cases board depth) as [-> | [-> | ->] ]; lia.
  - destruct (gameOver board) eqn:G.
    + rewrite game_value_terminal by done.
      destruct (terminal_score_cases board depth) as [-> | [-> | ->] ]; lia.
    + destruct (game_value_minimax board depth G ltac:(lia)) as [_ (i & Hi & <-)].
      destruct (blanks_insert board i _ Hi (turn_mark_not_blank depth)) as [Hb _].
      replace (depth + S n) with (S depth + n) by lia. apply IH; lia.
Qed.

Lemma turn_mark_shift depth k : Spec.turn_mark (depth + 2 * k) = Spec.turn_mark depth.
Proof. unfold Spec.turn_mark. by rewrite Nat.even_add_mul_2. Qed.

(** The value of the shifted search, by induction on the blanks: the
    maximum (minimum) of the shifted children is the shifted maximum
    (minimum), since [shift_score] preserves the order of the gap. *)
Lemma game_value_shift n board depth k :
  blanks board = n -> depth + 2 * k + n <= 9 ->
  Spec.game_value board (depth + 2 * k) = shift_score k (Spec.game_value board depth).
Proof.
  revert board depth. induction n as [|n IH]; intros board depth Hn HD.
  - assert (gameOver board = true) as G by (apply gameOver_iff; auto).
    rewrite !game_value_terminal by done. apply terminal_score_shift. lia.
  - destruct (gameOver board) eqn:G.
    { rewrite !game_value_terminal by done. apply terminal_score_shift. lia. }
    destruct (game_value_minimax board depth G ltac:(lia)) as [Hall (i0 & Hi0 & E0)].
    destruct (game_value_minimax board (depth + 2 * k) G ltac:(lia)) as [Hall' (i1 & Hi1 & E1)].
    rewrite turn_mark_shift, Nat.even_add_mul_2 in *.
    assert (forall i, board !! i = Some Blank ->
      Spec.game_value (<[i:=Spec.turn_mark depth]> board) (S (depth + 2 * k)) =
      shift_score k (Spec.game_value (<[i:=Spec.turn_mark depth]> board) (S depth)) /\
      score_gap (depth + S n) (Spec.game_value (<[i:=Spec.turn_mark depth]> board) (S depth))) as Hch.
    { intros i Hi. destruct (blanks_insert board i _ Hi (turn_mark_not_blank depth)) as [Hb _].
      split; [apply (IH _ (S depth)); lia|].
      replace (depth + S n) with (S depth + n) by lia. apply game_value_gap; lia. }
    pose proof (game_value_gap (S n) board depth Hn ltac:(lia)) as Gv.
    destruct (Hch i0 Hi0) as [S0 G0]. destruct (Hch i1 Hi1) as [S1 G1].
    specialize (Hall i1 Hi1). specialize (Hall' i0 Hi0). rewrite E0 in *.
    rewrite S0 in Hall'. rewrite <- E1, S1.
    destruct (Nat.even depth).
    + apply (shift_score_mono k (depth + S n)) in Hall; [|lia|done|done]. lia.
    + apply (shift_score_mono k (depth + S n)) in Hall; [|lia|done|done]. lia.
Qed.

(** The scores [bestMove] compares, under the shift. *)
Lemma move_score_shift board depth k j :
  board !! j = Some Blank -> depth + 2 * k + blanks board <= 9 ->
  move_score board (depth + 2 * k) j = shift_score k (move_score board depth j) /\
  score_gap (depth + blanks board) (move_score board depth j).
Proof.
  intros Hj HD. destruct (blanks_insert board j MarkO Hj ltac:(done)) as [Hb Hpos].
  unfold move_score. split.
  - apply (game_value_shift (blanks board - 1) _ (S depth)); [done|lia].
  - replace (depth + blanks board) with (S depth + (blanks board - 1)) by lia.
    apply game_value_gap; [done|lia].
Qed.

(** The first minimiser of the shifted scores is a first minimiser of the
    original ones. *)
Lemma first_argmin_shift board depth k i :
  depth + 2 * k + blanks board <= 9 ->
  (forall j, board !! j = Some Blank -> (move_score board (depth + 2 * k) i <= move_score board (depth + 2 * k) j)%Z) ->
  (forall j, board !! j = Some Blank -> j < i -> (move_score board (depth + 2 * k) i < move_score board (depth + 2 * k) j)%Z) ->
  board !! i = Some Blank ->
  (forall j, board !! j = Some Blank -> (move_score board depth i <= move_score board depth j)%Z) /\
  (forall j, board !! j = Some Blank -> j < i -> (move_score board depth i < move_score board depth j)%Z).
Proof.
  intros HD Hmin Hfirst Hi. destruct (move_score_shift board depth k i Hi HD) as [Si Gi].
  split.
  - intros j Hj. destruct (move_score_shift board depth k j Hj HD) as [Sj Gj].
    specialize (Hmin j Hj). rewrite Si, Sj in Hmin.
    by apply (shift_score_mono k (depth + blanks board)) in Hmin; [|lia|done|done].
  - intros j Hj Hlt. destruct (move_score_shift board depth k j Hj HD) as [Sj Gj].
    specialize (Hfirst j Hj Hlt). rewrite Si, Sj in Hfirst.
    destruct (Z.le_gt_cases (move_score board depth j) (move_score board depth i)) as [Hle|]; [|lia].
    apply (shift_score_mono k (depth + blanks board)) in Hle; [lia|lia|done|done].
Qed.

(** ** Properties *)

(** C16: starting the count [2 * k] plies later does not change the move
    of [bestMove] while the game fits in nine plies
    ([depth + 2 * k + blanks <= 9]); with [depth] odd and
    [depth + blanks = 9], as in every call of the controller, the search
    from the absolute ply chooses what the search from ply 1 chooses. *)
Theorem bestMove_depth_shift board depth k :
  depth + 2 * k + blanks board <= 9 ->
  bestMove (depth + 2 * k) board = bestMove depth board.
Proof.
  intros HD.
  destruct (bestMove_none_iff board depth) as (r & Hrun & Hn).
  destruct (bestMove_none_iff board (depth + 2 * k)) as (r' & Hrun' & Hn').
  rewrite Hrun, Hrun'. destruct r as [i|], r' as [i'|].
  - destruct (bestMove_argmin board depth i board Hrun) as (_ & Hi & Hmin & Hfirst).
    destruct (bestMove_argmin board _ i' board Hrun') as (_ & Hi' & Hmin' & Hfirst').
    destruct (first_argmin_shift board depth k i' HD Hmin' Hfirst' Hi') as [Hm Hf].
    by rewrite (first_argmin_unique (fun j => board !! j = Some Blank) (move_score board depth) i i'
                  Hi Hi' Hmin Hfirst Hm Hf).
  - exfalso. destruct Hn' as [Hn' _]. specialize (Hn' eq_refl).
    assert (Some i <> None) as Hs by done. apply Hs, Hn, Hn'.
  - exfalso. destruct Hn as [Hn _]. specialize (Hn eq_refl).
    assert (Some i' <> None) as Hs by done. apply Hs, Hn', Hn.
  - done.
Qed.

(** ** Witnesses *)

Lemma bestMove_depth_shift_witness :
  1 + 2 * 1 + blanks [MarkX; Blank; Blank; Blank; MarkO; Blank; Blank; Blank; MarkX] <= 9 /\
  bestMove (1 + 2 * 1) [MarkX; Blank; Blank; Blank; MarkO; Blank; Blank; Blank; MarkX]
  = bestMove 1 [MarkX; Blank; Blank; Blank; MarkO; Blank; Blank; Blank; MarkX].
Proof. split; [vm_compute; lia|]. apply bestMove_depth_shift. vm_compute. lia. Defined.
