(* ===== verification/Outcome.v ===== *)
(** * What the score means: forced wins (game theory of src/src/Game.js)

    The code reads the sign of [minimax]'s score: positive is good for
    ["X"], negative for ["O"].  This file states what that means, with no
    reference to scores: [forces_win p board depth] says that player [p]
    can force [checkWinner] to name [p], whatever the other player does,
    when it is [Spec.turn_mark depth]'s turn.  The theorem: in a real game
    the score is positive exactly when ["X"] can force a win and negative
    exactly when ["O"] can.  The score of the empty board is [0], by
    evaluation of the whole tree; the controller's invariant starts
    from it. *)

From stdpp Require Import base list.
From Stdlib Require Import ZArith.
From S2P Require Import Prelude Board Minimax.

(** The verdict that names player [p]. *)
Definition win_of (p : cell) : option verdict :=
  match p with MarkX => Some WinX | MarkO => Some WinO | Blank => None end.

(** Player [p] can force a win from [board] with [depth] marks played. *)
Inductive forces_win (p : cell) : list cell -> nat -> Prop :=
| fw_won board depth :
    gameOver board = true -> checkWinner board = win_of p -> p <> Blank ->
    forces_win p board depth
| fw_move board depth i :
    gameOver board = false -> Spec.turn_mark depth = p -> board !! i = Some Blank ->
    forces_win p (<[i:=p]> board) (S depth) -> forces_win p board depth
| fw_reply board depth :
    gameOver board = false -> Spec.turn_mark depth <> p ->
    (forall i, board !! i = Some Blank -> forces_win p (<[i:=Spec.turn_mark depth]> board) (S depth)) ->
    forces_win p board depth.

(** In a running game: a move of one's own that forces the win, or a
    forced win after every reply. *)
Lemma forces_win_running p board depth :
  gameOver board = false ->
  forces_win p board depth <->
  if decide (Spec.turn_mark depth = p)
  then exists i, board !! i = Some Blank /\ forces_win p (<[i:=p]> board) (S depth)
  else forall i, board !! i = Some Blank -> forces_win p (<[i:=Spec.turn_mark depth]> board) (S depth).
Proof.
  intros G. split.
  - intros Hf. inversion Hf as [? ? G'|? ? i ? Ht Hi Hc|? ? ? Ht Hall]; subst.
    + congruence.
    + rewrite decide_True by done. eauto.
    + by rewrite decide_False.
  - case_decide as Ht.
    + intros (i & Hi & Hc). by eapply fw_move.
    + intros Hall. by apply fw_reply.
Qed.

Lemma forces_win_over p board depth :
  gameOver board = true -> forces_win p board depth <-> checkWinner board = win_of p /\ p <> Blank.
Proof.
  intros G. split.
  - intros Hf. inversion Hf; subst; [done|congruence|congruence].
  - intros [? ?]. by apply fw_won.
Qed.

(** The two readings of the sign at a finished position. *)
Lemma terminal_score_sign board depth :
  depth <= 9 ->
  ((0 < terminal_score board depth)%Z <-> checkWinner board = Some WinX) /\
  ((terminal_score board depth < 0)%Z <-> checkWinner board = Some WinO).
Proof.
  intros Hd. unfold terminal_score.
  repeat case_decide; try (split; split; intros; try done; try congruence; lia).
Qed.

(** The sign of the reference value, by induction on the blanks. *)
Lemma game_value_sign n board depth :
  blanks board = n -> depth + n <= 9 ->
  ((0 < Spec.game_value board depth)%Z <-> forces_win MarkX board depth) /\
  ((Spec.game_value board depth < 0)%Z <-> forces_win MarkO board depth).
Proof.
  revert board depth. induction n as [|n IH]; intros board depth Hn HD.
  - assert (gameOver board = true) as G by (apply gameOver_iff; auto).
    rewrite game_value_terminal, !forces_win_over by done.
    destruct (terminal_score_sign board depth ltac:(lia)) as [HX HO]. rewrite HX, HO.
    simpl. naive_solver.
  - destruct (gameOver board) eqn:G.
    { rewrite game_value_terminal, !forces_win_over by done.
      destruct (terminal_score_sign board depth ltac:(lia)) as [HX HO]. rewrite HX, HO.
      simpl. naive_solver. }
    assert (forall i, board !! i = Some Blank ->
      ((0 < Spec.game_value (<[i:=Spec.turn_mark depth]> board) (S depth))%Z <->
         forces_win MarkX (<[i:=Spec.turn_mark depth]> board) (S depth)) /\
      ((Spec.game_value (<[i:=Spec.turn_mark depth]> board) (S depth) < 0)%Z <->
         forces_win MarkO (<[i:=Spec.turn_mark depth]> board) (S depth))) as Hch.
    { intros i Hi. destruct (blanks_insert board i _ Hi (turn_mark_not_blank depth)).
      apply IH; lia. }
    destruct (game_value_minimax board depth G ltac:(lia)) as [Hall (i0 & Hi0 & E)].
    rewrite !forces_win_running by done. unfold Spec.turn_mark in *.
    destruct (Nat.even depth); rewrite ?decide_True, ?decide_False by done; split; split.
    + intros Hpos. exists i0. split; [done|]. apply Hch; [done|]. lia.
    + intros (i & Hi & Hc). apply Hch in Hc as Hc'; [|done]. specialize (Hall i Hi). lia.
    + intros Hneg i Hi. apply Hch; [done|]. specialize (Hall i Hi). lia.
    + intros Hc. specialize (Hc i0 Hi0). apply Hch in Hc; [lia|done].
    + intros Hpos i Hi. apply Hch; [done|]. specialize (Hall i Hi). lia.
    + intros Hc. specialize (Hc i0 Hi0). apply Hch in Hc; [lia|done].
    + intros Hneg. exists i0. split; [done|]. apply Hch; [done|]. lia.
    + intros (i & Hi & Hc). apply Hch in Hc as Hc'; [|done]. specialize (Hall i Hi). lia.
Qed.

(** The value of the empty board, by evaluating the whole game tree. *)
Lemma empty_board_value : Spec.game_value (replicate 9 Blank) 0 = 0%Z.
Proof. vm_compute. reflexivity. Qed.

(** ** Properties *)

(** C4: in a real game ([depth + blanks <= 9]) the score [minimax]
    returns is positive exactly when ["X"] can force a win and negative
    exactly when ["O"] can; zero means neither can. *)
Theorem minimax_sign board depth :
  depth + blanks board <= 9 ->
  exists v, minimax_run board depth = Some (v, board) /\
    ((0 < v)%Z <-> forces_win MarkX board depth) /\
    ((v < 0)%Z <-> forces_win MarkO board depth).
Proof.
  intros HD. exists (Spec.game_value board depth). split; [apply minimax_run_spec|].
  by apply (game_value_sign (blanks board)).
Qed.

(** ** Witnesses *)

Lemma minimax_sign_witness :
  4 + blanks [MarkX; MarkX; Blank; MarkO; MarkO; Blank; Blank; Blank; Blank] <= 9 /\
  exists v, minimax_run [MarkX; MarkX; Blank; MarkO; MarkO; Blank; Blank; Blank; Blank] 4
              = Some (v, [MarkX; MarkX; Blank; MarkO; MarkO; Blank; Blank; Blank; Blank]) /\
    ((0 < v)%Z <-> forces_win MarkX [MarkX; MarkX; Blank; MarkO; MarkO; Blank; Blank; Blank; Blank] 4) /\
    ((v < 0)%Z <-> forces_win MarkO [MarkX; MarkX; Blank; MarkO; MarkO; Blank; Blank; Blank; Blank] 4).
Proof. split; [vm_compute; lia|]. apply minimax_sign. vm_compute. lia. Defined.
