(* ===== verification/Game.v ===== *)
(** * The controller: [handleClick], [computerMove], the effect and its timer
      (src/src/Game.js, lines 4-6, 111-146 and 188)

    React state: [gameboard] (an array object) and [depth].  The code
    mutates the array in place and passes the same reference back to
    [setGameboard], and the 100 ms timer of the effect captures the array
    reference of the render that scheduled it.  So the model keeps a heap
    of arrays ([heap], indexed by location): [gameboard] is a location,
    each pending timer holds the location it captured, and [Array(9).fill]
    allocates a new location.

    React's order of events is modelled as: a state update re-renders and
    runs the effect before the next user event ([settle]); the effect runs
    again when it changed the state (the bot's move bumps [depth]); timers
    fire in the order they were scheduled.

    The bot is reached through the [BotEngine] interface: the controller's
    theorems use only its laws, and [bestMove] discharges them.

    The theorems: the invariant [inv] of every reachable state (turn
    discipline, quiescence, alerts naming a verdict); [timer_pending], a
    finished board on screen has a reset timer pending on its array; and
    the two defects that follow from the code: clicks are accepted on a
    finished board, and pending timers are never cancelled. *)

From stdpp Require Import base list.
From Stdlib Require Import ZArith.
From Stdlib Require String.
Import String.StringSyntax.
Delimit Scope string_scope with string.
From S2P Require Import Prelude Board Minimax BestMove.

(** ** The interface between the controller and the search *)

(** What [computerMove] calls: [bestMove(board, depth)] on the shared
    array, returning a cell index or [undefined]. *)
Class BotEngine := { engine_bestMove : nat -> St (list cell) (option nat) }.

(** What the controller needs of it. *)
Class BotEngineLaws `{BotEngine} := {
  engine_total : forall board depth, exists r,
    engine_bestMove depth board = Some (r, board) /\ (r = None <-> blanks board = 0);
  engine_blank : forall board depth i board',
    engine_bestMove depth board = Some (Some i, board') -> board !! i = Some Blank
}.

(** ** Data *)

Definition empty_board : list cell := replicate 9 Blank.

Record game := mkGame {
  heap : list (list cell);  (** every array allocated so far *)
  gameboard : nat;          (** React state [gameboard]: a location *)
  depth : nat;              (** React state [depth] *)
  timers : list nat;        (** pending reset timers, with the location each captured *)
  alerts : list String.string(** the alerts shown so far *)
}.

(** Line 4-6: the state at mount. *)
Definition init : game := mkGame [empty_board] 0 0 [] [].

(** The array the state currently points to. *)
Definition cur (s : game) : list cell := heap s !!! gameboard s.

(** Writing into the current array, in place. *)
Definition set_cur (s : game) (board : list cell) : game :=
  mkGame (<[gameboard s:=board]> (heap s)) (gameboard s) (depth s) (timers s) (alerts s).

Definition set_depth (s : game) (d : nat) : game :=
  mkGame (heap s) (gameboard s) d (timers s) (alerts s).

(** [setGameboard(Array(9).fill("_")); setDepth(0)]: a new array. *)
Definition reset_state (s : game) : game :=
  mkGame (heap s ++ [empty_board])%list (length (heap s)) 0 (timers s) (alerts s).

(** Line 136. *)
Definition alert_text (winner : option verdict) : String.string :=
  match winner with
  | Some Draw => "It's a draw!"%string
  | Some WinX => "X wins!"%string
  | Some WinO => "O wins!"%string
  | None => "undefined wins!"%string
  end.

(** The events the page reacts to: a click on a cell, the Reset button,
    a pending timer firing. *)
Inductive event := Click (index : nat) | ResetButton | TimerFires.

Section Controller.
Context `{BotEngine}.

  (** Lines 118-129.  [None]: the early [return] on a taken square, which
      updates no state (no re-render, no effect). *)
Definition handleClick (index : nat) (s : game) : option game :=
    let board := cur s in
    if decide (board !! index <> Some Blank) then None
    else
      let newBoard := <[index:=if Nat.even (depth s) then MarkX else MarkO]> board in
      Some (set_depth (set_cur s newBoard) (S (depth s))).

  (** Lines 111-116.  [bestMove] runs on the state's array and hands it
      back; [newBoard[best_move] = "O"] writes into it.  When [best_move]
      is [undefined] the write sets a property named "undefined", which is
      no cell of the board. *)
Definition computerMove (s : game) : game :=
    match engine_bestMove (depth s) (cur s) with
    | Some (Some best_move, board) => set_cur s (<[best_move:=MarkO]> board)
    | Some (None, board) => set_cur s board
    | None => s
    end.

  (** Lines 131-146: the effect, and whether it changed the state (which
      re-renders and runs the effect again). *)
Definition effect (s : game) : game * bool :=
    if gameOver (cur s) then
      (mkGame (heap s) (gameboard s) (depth s) (timers s ++ [gameboard s])%list (alerts s), false)
    else if negb (Nat.even (depth s)) then
      (set_depth (computerMove s) (S (depth s)), true)
    else (s, false).

  (** Effect runs until one leaves the state alone. *)
Fixpoint run_effects (fuel : nat) (s : game) : game :=
    match fuel with
    | 0 => s
    | S f => let '(s', again) := effect s in if again then run_effects f s' else s'
    end.

  (** Two runs are enough (theorem [effect_settles]). *)
Definition settle (s : game) : game := run_effects 2 s.

  (** One user or timer event, followed by the render and effects. *)
Definition step (e : event) (s : game) : game :=
    match e with
    | Click index =>
        match handleClick index s with Some s' => settle s' | None => s end
    | ResetButton => settle (reset_state s)
    | TimerFires =>
        match timers s with
        | loc :: rest =>
            let winner := checkWinner (heap s !!! loc) in
            settle (reset_state
              (mkGame (heap s) (gameboard s) (depth s) rest (alerts s ++ [alert_text winner])%list))
        | [] => s
        end
    end.

  (** The events that can happen: a click on one of the nine cells, the
      Reset button, a pending timer firing. *)
Definition enabled (e : event) (s : game) : Prop :=
    match e with
    | Click index => index < 9
    | ResetButton => True
    | TimerFires => timers s <> []
    end.

Inductive reachable : game -> Prop :=
  | reach_init : reachable init
  | reach_step e s : reachable s -> enabled e s -> reachable (step e s).
End Controller.

(** ** The search implements the interface *)

#[export] Instance bestMove_engine : BotEngine := {| engine_bestMove := bestMove |}.

#[export] Instance bestMove_engine_laws : BotEngineLaws.
Proof.
  split.
  - apply bestMove_none_iff.
  - intros board depth i board' Hrun. by destruct (bestMove_argmin board depth i board' Hrun) as (_ & ? & _).
Qed.

(** ** The controller's invariant *)

(** The part of the invariant that every state change keeps: arrays of
    nine cells, [depth] marks on the current array with ["X"] one ahead
    at odd depth, every pending timer holding a finished array, and every
    alert naming a verdict. *)
Definition inv_core (s : game) : Prop :=
  Forall (fun b => length b = 9) (heap s) /\
  gameboard s < length (heap s) /\
  count_of MarkX (cur s) + count_of MarkO (cur s) = depth s /\
  count_of MarkX (cur s) = count_of MarkO (cur s) + (if Nat.even (depth s) then 0 else 1) /\
  Forall (fun l => l < length (heap s) /\ gameOver (heap s !!! l) = true) (timers s) /\
  Forall (fun a => a ∈ ["X wins!"; "O wins!"; "It's a draw!"]%string) (alerts s).

(** No effect is left to run: the game is over, or it is the human's turn. *)
Definition quiescent (s : game) : Prop :=
  gameOver (cur s) = true \/ Nat.even (depth s) = true.

Definition inv (s : game) : Prop := inv_core s /\ quiescent s.

(** [depth] marks placed, then a mark on blank [i] and [depth + 1]. *)
Definition place (s : game) (i : nat) (m : cell) : game :=
  set_depth (set_cur s (<[i:=m]> (cur s))) (S (depth s)).

Lemma cur_set_cur s b : gameboard s < length (heap s) -> cur (set_cur s b) = b.
Proof. intros Hg. unfold cur, set_cur. simpl. by apply list_lookup_total_insert_eq. Qed.

Lemma count_of_fill b i m z :
  b !! i = Some Blank -> z <> Blank ->
  count_of z (<[i:=m]> b) = count_of z b + (if decide (m = z) then 1 else 0).
Proof.
  intros Hi Hz. pose proof (count_of_insert b i m Blank z Hi) as H.
  rewrite decide_False in H by congruence. lia.
Qed.

(** Writing into the current array keeps every array at nine cells. *)
Lemma heap_lengths_set_cur s b :
  Forall (fun b => length b = 9) (heap s) -> length b = 9 ->
  Forall (fun b => length b = 9) (heap (set_cur s b)).
Proof.
  rewrite !Forall_lookup. intros Hheap Hb l b' Hl. simpl in Hl.
  apply list_lookup_insert_Some in Hl as [(_ & <- & _)|[_ Hl]]; [done|]. by apply (Hheap l).
Qed.

(** Filling a blank of the current array keeps every timer's array
    finished, also when a timer holds the current array (aliasing). *)
Lemma timers_set_cur_fill s i m :
  gameboard s < length (heap s) -> cur s !! i = Some Blank -> m <> Blank ->
  Forall (fun l => l < length (heap s) /\ gameOver (heap s !!! l) = true) (timers s) ->
  Forall (fun l => l < length (heap (set_cur s (<[i:=m]> (cur s)))) /\
                   gameOver (heap (set_cur s (<[i:=m]> (cur s))) !!! l) = true) (timers s).
Proof.
  intros Hg Hi Hm Ht. eapply Forall_impl; [exact Ht|]. intros l [Hl Hover]. simpl. rewrite length_insert. split; [done|].
  destruct (decide (l = gameboard s)) as [->|Hne].
  - rewrite list_lookup_total_insert_eq by done. by apply gameOver_mono.
  - by rewrite list_lookup_total_insert_ne by done.
Qed.

Lemma cur_place s i m : gameboard s < length (heap s) -> cur (place s i m) = <[i:=m]> (cur s).
Proof. intros Hg. unfold place. by apply cur_set_cur. Qed.

(** Filling a blank of the current array with the mark of the player to
    move keeps the core invariant. *)
Lemma inv_core_place s i m :
  inv_core s -> cur s !! i = Some Blank ->
  m = (if Nat.even (depth s) then MarkX else MarkO) ->
  inv_core (place s i m).
Proof.
  intros (Hheap & Hg & Hsum & Hdiff & Ht & Ha) Hi Hm.
  assert (m <> Blank) as Hmb by (subst m; by destruct (Nat.even (depth s))).
  assert (length (cur s) = 9) as Hlen.
  { rewrite Forall_lookup in Hheap. apply (Hheap (gameboard s)). by apply list_lookup_lookup_total_lt. }
  unfold inv_core. rewrite cur_place by done. rewrite !count_of_fill by done.
  pose proof (timers_set_cur_fill s i m Hg Hi Hmb Ht) as Ht'.
  unfold place, set_depth. simpl heap; simpl gameboard; simpl depth; simpl timers; simpl alerts.
  split; [apply heap_lengths_set_cur; [done|by rewrite length_insert]|].
  split; [simpl; by rewrite length_insert|].
  rewrite even_S. subst m. destruct (Nat.even (depth s)); simpl in *; repeat split; try lia; done.
Qed.

Lemma handleClick_place s index s' :
  handleClick index s = Some s' ->
  cur s !! index = Some Blank /\ s' = place s index (if Nat.even (depth s) then MarkX else MarkO).
Proof. unfold handleClick. case_decide as Hb; [done|]. intros [= <-]. split; [|done]. by destruct (cur s !! index) as [[]|]; try done; destruct Hb. Qed.

Section EngineLaws.
Context `{BotEngine} `{!BotEngineLaws}.

  (** When the effect calls [computerMove] (running game, odd depth),
      [bestMove] returns a blank cell and the array unchanged, and the move
      is the placement of ["O"] there. *)
Lemma computerMove_place s :
    gameOver (cur s) = false -> Nat.even (depth s) = false ->
    exists m, engine_bestMove (depth s) (cur s) = Some (Some m, cur s) /\
              cur s !! m = Some Blank /\
              set_depth (computerMove s) (S (depth s)) = place s m MarkO.
  Proof.
    intros G Hodd. destruct (engine_total (cur s) (depth s)) as ([m|] & Hrun & Hnone).
    - exists m. split; [done|]. split; [by eapply engine_blank|].
      unfold computerMove. by rewrite Hrun.
    - pose proof (running_has_blank (cur s) G). destruct Hnone as [Hn _]. specialize (Hn eq_refl). lia.
  Qed.

Lemma inv_core_effect s : inv_core s -> inv_core (effect s).1.
  Proof.
    intros Hinv. unfold effect. destruct (gameOver (cur s)) eqn:G.
    - destruct Hinv as (? & ? & ? & ? & Ht & ?). unfold inv_core. simpl.
      repeat split; try done. apply Forall_app. split; [done|]. by repeat constructor.
    - destruct (Nat.even (depth s)) eqn:Hodd; simpl; [done|].
      destruct (computerMove_place s G Hodd) as (m & _ & Hm & ->).
      apply inv_core_place; [done|done|by rewrite Hodd].
  Qed.

  (** After the effect that moved for the bot, the next one does not
      change the state again. *)
Lemma effect_again_once s : (effect s).2 = true -> (effect (effect s).1).2 = false.
  Proof.
    intros Ha. unfold effect in Ha.
    destruct (gameOver (cur s)) eqn:G; [done|]. destruct (Nat.even (depth s)) eqn:Hodd; [done|].
    replace (effect s) with (set_depth (computerMove s) (S (depth s)), true)
      by (unfold effect; by rewrite G, Hodd).
    simpl fst. unfold effect. destruct (gameOver _); [done|]. cbn [depth set_depth].
    rewrite even_S, Hodd. simpl. by destruct (gameOver _).
  Qed.

Lemma settle_unfold s :
    settle s = if (effect s).2 then (effect (effect s).1).1 else (effect s).1.
  Proof.
    unfold settle. simpl. destruct (effect s) as [s1 []]; simpl; [|done].
    by destruct (effect s1) as [s2 []].
  Qed.

Lemma effect_quiescent s :
    (effect s).2 = false -> quiescent (effect s).1.
  Proof.
    unfold effect, quiescent. destruct (gameOver (cur s)) eqn:G; simpl; [by left|].
    destruct (Nat.even (depth s)) eqn:Hodd; simpl; [by right|done].
  Qed.

  (** Running the effects after a state change restores the invariant. *)
Lemma inv_settle s : inv_core s -> inv (settle s).
  Proof.
    intros Hinv. rewrite settle_unfold. destruct (effect s).2 eqn:Ha.
    - split; [by do 2 apply inv_core_effect|]. apply effect_quiescent. by apply effect_again_once.
    - split; [by apply inv_core_effect|]. by apply effect_quiescent.
  Qed.
End EngineLaws.

Lemma cur_reset s : cur (reset_state s) = empty_board.
Proof. unfold cur, reset_state. simpl. rewrite lookup_total_app_r by lia. by rewrite Nat.sub_diag. Qed.

(** The blanks of the current array and [depth] add up to nine. *)
Lemma inv_core_blanks s : inv_core s -> blanks (cur s) + depth s = 9.
Proof.
  intros (Hheap & Hg & Hsum & _). pose proof (count_partition (cur s)) as Hp.
  rewrite Forall_lookup in Hheap. rewrite (Hheap (gameboard s) (cur s)) in Hp; [lia|].
  by apply list_lookup_lookup_total_lt.
Qed.

Lemma inv_core_reset s : inv_core s -> inv_core (reset_state s).
Proof.
  intros (Hheap & Hg & _ & _ & Ht & Ha). unfold inv_core, reset_state, cur. simpl.
  rewrite lookup_total_app_r by lia. rewrite Nat.sub_diag. simpl.
  rewrite length_app. simpl. split; [apply Forall_app; split; [done|by repeat constructor]|].
  split; [lia|]. split; [done|]. split; [done|]. split; [|done].
  eapply Forall_impl; [exact Ht|]. intros l [Hl Hover]. split; [lia|].
  by rewrite lookup_total_app_l by done.
Qed.

(** A finished array's verdict is never [undefined]. *)
Lemma alert_text_over board :
  gameOver board = true -> alert_text (checkWinner board) ∈ ["X wins!"; "O wins!"; "It's a draw!"]%string.
Proof.
  rewrite gameOver_truthy. destruct (checkWinner board) as [[| |]|]; simpl; [..|done];
    intros _; repeat (apply elem_of_cons; first [by left|right]).
Qed.

Lemma inv_core_timer s loc rest :
  inv_core s -> timers s = loc :: rest ->
  inv_core (mkGame (heap s) (gameboard s) (depth s) rest
              (alerts s ++ [alert_text (checkWinner (heap s !!! loc))])%list).
Proof.
  intros (Hheap & Hg & Hs & Hd & Ht & Ha) Hq. rewrite Hq in Ht.
  apply Forall_cons in Ht as [[_ Hover] Ht]. unfold inv_core, cur. simpl.
  do 5 (split; [done|]). apply Forall_app. split; [done|]. constructor; [|done].
  by apply alert_text_over.
Qed.

Section Reachable.
Context `{BotEngine} `{!BotEngineLaws}.

Lemma inv_init : inv init.
  Proof.
    split; [|by right]. unfold inv_core, init, cur. simpl.
    split; [by repeat constructor|]. split; [lia|]. split; [done|]. split; [done|]. done.
  Qed.

  (** Every event keeps the invariant. *)
Lemma inv_step e s : inv s -> inv (step e s).
  Proof.
    intros [Hcore Hq]. destruct e as [index| |]; simpl.
    - destruct (handleClick index s) as [s'|] eqn:Hc; [|by split].
      destruct (handleClick_place s index s' Hc) as [Hb ->].
      by apply inv_settle, inv_core_place.
    - by apply inv_settle, inv_core_reset.
    - destruct (timers s) as [|loc rest] eqn:Ht; [by split|].
      by apply inv_settle, inv_core_reset, inv_core_timer.
  Qed.

Lemma reachable_inv s : reachable s -> inv s.
  Proof. induction 1; [apply inv_init|by apply inv_step]. Qed.
End Reachable.

(** ** Pending timers *)

(** A finished board on screen has a reset timer pending on its array. *)
Definition timer_pending (s : game) : Prop :=
  gameOver (cur s) = true -> gameboard s ∈ timers s.

Section Timers.
Context `{BotEngine}.

(** An effect that does not ask for a re-run leaves a finished board with
    its timer: it scheduled one, or the board is not finished. *)
Lemma effect_timer_pending s : (effect s).2 = false -> timer_pending (effect s).1.
Proof.
  unfold effect, timer_pending. destruct (gameOver (cur s)) eqn:G; simpl.
  - intros _ _. apply elem_of_app. right. by apply list_elem_of_singleton.
  - destruct (Nat.even (depth s)); simpl; [|done]. intros _ G'. congruence.
Qed.

Lemma settle_timer_pending s : timer_pending (settle s).
Proof.
  rewrite settle_unfold. destruct (effect s).2 eqn:Ha.
  - apply effect_timer_pending, effect_again_once, Ha.
  - by apply effect_timer_pending.
Qed.

(** No event but a timer removes a pending timer: clicks, Reset and the
    effects only schedule new ones. *)
Lemma effect_timers s : exists l, timers (effect s).1 = (timers s ++ l)%list.
Proof.
  unfold effect. destruct (gameOver (cur s)); simpl; [by eexists|].
  destruct (Nat.even (depth s)); simpl; [exists []; by rewrite app_nil_r|].
  exists []. rewrite app_nil_r. unfold computerMove.
  by destruct (engine_bestMove (depth s) (cur s)) as [[[]]|].
Qed.

Lemma settle_timers s : exists l, timers (settle s) = (timers s ++ l)%list.
Proof.
  rewrite settle_unfold. destruct (effect_timers s) as [l1 E1].
  destruct (effect s).2; [|by exists l1].
  destruct (effect_timers (effect s).1) as [l2 E2]. exists (l1 ++ l2)%list.
  by rewrite E2, E1, app_assoc.
Qed.

Lemma step_timers e s : e <> TimerFires -> exists l, timers (step e s) = (timers s ++ l)%list.
Proof.
  intros He. destruct e as [index| |]; simpl; [|apply (settle_timers (reset_state s))|done].
  destruct (handleClick index s) as [s'|] eqn:Hc; [|exists []; by rewrite app_nil_r].
  destruct (handleClick_place s index s' Hc) as [_ ->]. apply (settle_timers (place _ _ _)).
Qed.

Lemma steps_timers es s :
  Forall (fun e => e <> TimerFires) es ->
  exists l, timers (fold_left (fun s e => step e s) es s) = (timers s ++ l)%list.
Proof.
  revert s. induction es as [|e es IH]; intros s Hes; simpl; [exists []; by rewrite app_nil_r|].
  apply Forall_cons in Hes as [He Hes]. destruct (step_timers e s He) as [l1 E1].
  destruct (IH (step e s) Hes) as [l2 E2]. exists (l1 ++ l2)%list. by rewrite E2, E1, app_assoc.
Qed.

(** The effect leaves a fresh empty board at depth 0 alone. *)
Lemma settle_reset s : settle (reset_state s) = reset_state s.
Proof.
  rewrite settle_unfold. unfold effect. rewrite cur_reset. simpl. done.
Qed.

Lemma reachable_timer_pending s : reachable s -> timer_pending s.
Proof.
  induction 1 as [|e s Hr IH _].
  - unfold timer_pending, init, cur. simpl. intros G. vm_compute in G. discriminate G.
  - destruct e as [index| |]; simpl; [|apply settle_timer_pending|].
    + destruct (handleClick index s); [apply settle_timer_pending|done].
    + destruct (timers s); [done|apply settle_timer_pending].
Qed.
End Timers.

(** ** Properties *)

(** C11: in every reachable state [depth] is the number of marks on the
    board the page shows, ["X"] is one mark ahead exactly at odd depth,
    and [9 - depth] cells are blank. *)
Theorem reachable_turn_discipline s :
  reachable s ->
  count_of MarkX (cur s) + count_of MarkO (cur s) = depth s /\
  count_of MarkX (cur s) = count_of MarkO (cur s) + (if Nat.even (depth s) then 0 else 1) /\
  blanks (cur s) + depth s = 9.
Proof.
  intros Hr. destruct (reachable_inv s Hr) as [Hcore _].
  pose proof (inv_core_blanks s Hcore). destruct Hcore as (_ & _ & Hsum & Hdiff & _). auto.
Qed.

(** C12: whenever the page waits for an event, the bot has answered: the
    game is over or it is the human's turn (even depth). *)
Theorem reachable_quiescent s :
  reachable s -> gameOver (cur s) = true \/ Nat.even (depth s) = true.
Proof. intros Hr. apply (reachable_inv s Hr). Qed.

(** C13: for any engine meeting the interface, when the effect asks for a
    move (running game, odd depth) it gets a blank cell and the array back
    unchanged, so the [undefined] branch of [computerMove] is dead and the
    bot's move places one ["O"] on a blank. *)
Theorem computerMove_on_blank `{BotEngine} `{!BotEngineLaws} s :
  gameOver (cur s) = false -> Nat.even (depth s) = false ->
  exists m, engine_bestMove (depth s) (cur s) = Some (Some m, cur s) /\
            cur s !! m = Some Blank /\
            set_depth (computerMove s) (S (depth s)) = place s m MarkO.
Proof. apply computerMove_place. Qed.

(** C20: the effect chain stops: after the effect that moved for the bot,
    the next run changes nothing, so any fuel of at least two runs gives
    the same state as [settle]. *)
Theorem effect_settles `{BotEngine} n s :
  2 <= n -> run_effects n s = settle s.
Proof.
  intros Hn. destruct n as [|[|n]]; [lia|lia|]. unfold settle. simpl.
  destruct (effect s) as [s1 a1] eqn:E1. destruct a1; [|done].
  pose proof (effect_again_once s) as Ha. rewrite E1 in Ha. specialize (Ha eq_refl). simpl in Ha.
  destruct (effect s1) as [s2 a2]. simpl in Ha. subst a2. by destruct n.
Qed.

(** C19: every alert the page shows names a verdict: ["X wins!"],
    ["O wins!"] or ["It's a draw!"], never ["undefined wins!"]. *)
Theorem alerts_name_verdict s :
  reachable s -> Forall (fun a => a ∈ ["X wins!"; "O wins!"; "It's a draw!"]%string) (alerts s).
Proof. intros Hr. apply (reachable_inv s Hr). Qed.

(** C21: a click on a taken cell changes nothing (the early [return] of
    line 119; the spec's [InvalidMoveError] path). *)
Theorem click_taken_cell_ignored `{BotEngine} s index :
  cur s !! index <> Some Blank -> step (Click index) s = s.
Proof. intros Hb. simpl. unfold handleClick. by rewrite decide_True. Qed.

(** C8 (a defect of the code): [handleClick] does not test [gameOver].
    In every reachable state where the game is over, the reset timer
    scheduled by the effect is pending on the shown array, and a click on
    a blank is still accepted: the mark is written into that same array
    (which the timer reads when it fires) and [depth] goes on.  So after
    the bot has won, the human can add a line of ["X"] in the 100 ms
    before the reset, and the alert then names the winner of the modified
    board. *)
Theorem late_click_accepted s i :
  reachable s -> gameOver (cur s) = true -> cur s !! i = Some Blank ->
  gameboard s ∈ timers s /\
  gameboard (step (Click i) s) = gameboard s /\
  cur (step (Click i) s) = <[i:=if Nat.even (depth s) then MarkX else MarkO]> (cur s) /\
  depth (step (Click i) s) = S (depth s).
Proof.
  intros Hr G Hi. split; [by apply reachable_timer_pending|].
  destruct (reachable_inv s Hr) as [(_ & Hg & _) _].
  assert (handleClick i s = Some (place s i (if Nat.even (depth s) then MarkX else MarkO))) as Hc.
  { unfold handleClick. rewrite decide_False by (rewrite Hi; auto). done. }
  assert (gameOver (cur (place s i (if Nat.even (depth s) then MarkX else MarkO))) = true) as G'.
  { rewrite cur_place by done. apply gameOver_mono; [done|by destruct (Nat.even (depth s))|done]. }
  set (s' := place s i (if Nat.even (depth s) then MarkX else MarkO)) in *.
  assert (settle s' = mkGame (heap s') (gameboard s') (depth s') (timers s' ++ [gameboard s'])%list (alerts s'))
    as Es by (rewrite settle_unfold; unfold effect; by rewrite G').
  simpl. rewrite Hc, Es. split; [done|]. split; [|done]. subst s'. rewrite <- cur_place by done. done.
Qed.

(** C22 (a defect of the code): the effect schedules its reset with
    [setTimeout] and returns no cleanup, so neither Reset nor any click
    cancels a pending timer.  Whatever clicks and Resets follow, when the
    first pending timer fires it alerts the verdict of the array it
    captured and puts an empty board at depth 0 on screen, wiping a new
    game the human may have started in the meantime. *)
Theorem pending_timer_resets `{BotEngine} s loc rest es :
  timers s = loc :: rest -> Forall (fun e => e <> TimerFires) es ->
  cur (step TimerFires (fold_left (fun s e => step e s) es s)) = empty_board /\
  depth (step TimerFires (fold_left (fun s e => step e s) es s)) = 0 /\
  alerts (step TimerFires (fold_left (fun s e => step e s) es s)) =
    (alerts (fold_left (fun s e => step e s) es s) ++
     [alert_text (checkWinner (heap (fold_left (fun s e => step e s) es s) !!! loc))])%list.
Proof.
  intros Ht Hes. destruct (steps_timers es s Hes) as [l E]. rewrite Ht in E.
  simpl. rewrite E. simpl. rewrite settle_reset. split; [apply cur_reset|done].
Qed.

(** ** Witnesses *)

Lemma reachable_turn_discipline_witness :
  reachable (step (Click 4) init) /\
  count_of MarkX (cur (step (Click 4) init)) + count_of MarkO (cur (step (Click 4) init))
    = depth (step (Click 4) init) /\
  count_of MarkX (cur (step (Click 4) init))
    = count_of MarkO (cur (step (Click 4) init)) + (if Nat.even (depth (step (Click 4) init)) then 0 else 1) /\
  blanks (cur (step (Click 4) init)) + depth (step (Click 4) init) = 9.
Proof.
  assert (Hr : reachable (step (Click 4) init)) by (apply reach_step; [constructor|simpl; lia]).
  split; [exact Hr|]. exact (reachable_turn_discipline _ Hr).
Defined.

Lemma reachable_quiescent_witness :
  reachable (step (Click 4) init) /\
  (gameOver (cur (step (Click 4) init)) = true \/ Nat.even (depth (step (Click 4) init)) = true).
Proof.
  assert (Hr : reachable (step (Click 4) init)) by (apply reach_step; [constructor|simpl; lia]).
  split; [exact Hr|]. exact (reachable_quiescent _ Hr).
Defined.

Lemma alerts_name_verdict_witness :
  reachable (step TimerFires (step (Click 3) (step (Click 2) (step (Click 0) init)))) /\
  alerts (step TimerFires (step (Click 3) (step (Click 2) (step (Click 0) init)))) = ["O wins!"%string] /\
  Forall (fun a => a ∈ ["X wins!"; "O wins!"; "It's a draw!"]%string) (alerts (step TimerFires (step (Click 3) (step (Click 2) (step (Click 0) init))))).
Proof.
  assert (Hr : reachable (step TimerFires (step (Click 3) (step (Click 2) (step (Click 0) init))))).
  { apply reach_step; [|cbn [enabled]; vm_compute; intros Hn; discriminate Hn].
    repeat (apply reach_step; [|cbn [enabled]; lia]). constructor. }
  split; [exact Hr|]. split; [vm_compute; reflexivity|]. exact (alerts_name_verdict _ Hr).
Defined.

Lemma computerMove_on_blank_witness :
  gameOver (cur (place init 4 MarkX)) = false /\ Nat.even (depth (place init 4 MarkX)) = false /\
  exists m, engine_bestMove (depth (place init 4 MarkX)) (cur (place init 4 MarkX))
            = Some (Some m, cur (place init 4 MarkX)) /\
            cur (place init 4 MarkX) !! m = Some Blank /\
            set_depth (computerMove (place init 4 MarkX)) (S (depth (place init 4 MarkX)))
            = place (place init 4 MarkX) m MarkO.
Proof.
  split; [vm_compute; reflexivity|]. split; [reflexivity|].
  apply computerMove_on_blank; [vm_compute; reflexivity|reflexivity].
Defined.

Lemma effect_settles_witness :
  2 <= 3 /\ run_effects 3 (place init 4 MarkX) = settle (place init 4 MarkX).
Proof. split; [lia|]. apply effect_settles. lia. Defined.

Lemma click_taken_cell_ignored_witness :
  cur (place init 4 MarkX) !! 4 <> Some Blank /\
  step (Click 4) (place init 4 MarkX) = place init 4 MarkX.
Proof.
  split; [vm_compute; discriminate|]. apply click_taken_cell_ignored. vm_compute. discriminate.
Defined.

Lemma late_click_accepted_witness :
  reachable (step (Click 3) (step (Click 2) (step (Click 0) init))) /\
  gameOver (cur (step (Click 3) (step (Click 2) (step (Click 0) init)))) = true /\ cur (step (Click 3) (step (Click 2) (step (Click 0) init))) !! 6 = Some Blank /\
  gameboard (step (Click 3) (step (Click 2) (step (Click 0) init))) ∈ timers (step (Click 3) (step (Click 2) (step (Click 0) init))) /\
  gameboard (step (Click 6) (step (Click 3) (step (Click 2) (step (Click 0) init)))) = gameboard (step (Click 3) (step (Click 2) (step (Click 0) init))) /\
  cur (step (Click 6) (step (Click 3) (step (Click 2) (step (Click 0) init)))) = <[6:=if Nat.even (depth (step (Click 3) (step (Click 2) (step (Click 0) init)))) then MarkX else MarkO]> (cur (step (Click 3) (step (Click 2) (step (Click 0) init)))) /\
  depth (step (Click 6) (step (Click 3) (step (Click 2) (step (Click 0) init)))) = S (depth (step (Click 3) (step (Click 2) (step (Click 0) init)))).
Proof.
  assert (Hr : reachable (step (Click 3) (step (Click 2) (step (Click 0) init)))) by (repeat (apply reach_step; [|cbn [enabled]; lia]); constructor).
  assert (G : gameOver (cur (step (Click 3) (step (Click 2) (step (Click 0) init)))) = true) by (vm_compute; reflexivity).
  assert (Hi : cur (step (Click 3) (step (Click 2) (step (Click 0) init))) !! 6 = Some Blank) by (vm_compute; reflexivity).
  split; [exact Hr|]. split; [exact G|]. split; [exact Hi|].
  exact (late_click_accepted _ 6 Hr G Hi).
Defined.

Lemma pending_timer_resets_witness :
  timers (step (Click 3) (step (Click 2) (step (Click 0) init))) = [0] /\ Forall (fun e => e <> TimerFires) [ResetButton; Click 4] /\
  cur (step TimerFires (fold_left (fun s e => step e s) [ResetButton; Click 4] (step (Click 3) (step (Click 2) (step (Click 0) init))))) = empty_board /\
  depth (step TimerFires (fold_left (fun s e => step e s) [ResetButton; Click 4] (step (Click 3) (step (Click 2) (step (Click 0) init))))) = 0 /\
  alerts (step TimerFires (fold_left (fun s e => step e s) [ResetButton; Click 4] (step (Click 3) (step (Click 2) (step (Click 0) init))))) =
    (alerts (fold_left (fun s e => step e s) [ResetButton; Click 4] (step (Click 3) (step (Click 2) (step (Click 0) init)))) ++ [alert_text (checkWinner (heap (fold_left (fun s e => step e s) [ResetButton; Click 4] (step (Click 3) (step (Click 2) (step (Click 0) init)))) !!! 0))])%list.
Proof.
  assert (Ht : timers (step (Click 3) (step (Click 2) (step (Click 0) init))) = [0]) by (vm_compute; reflexivity).
  assert (Hes : Forall (fun e => e <> TimerFires) [ResetButton; Click 4])
    by (repeat constructor; discriminate).
  split; [exact Ht|]. split; [exact Hes|].
  exact (pending_timer_resets _ 0 [] _ Ht Hes).
Defined.
