(* ===== verification/NeverLoses.v ===== *)
(** * The bot never loses (src/src/Game.js with [bestMove] as the engine)

    A whole-program property: in every state the page can reach, with the
    real [bestMove] behind [computerMove], ["X"] owns a line only if ["O"]
    owns one too.  (Both can own one after a late click on a finished
    board, [Game.late_click_accepted]; ["X"] alone never.)

    The invariant [x_held]: the bot has a line already, or the value of the
    shown position is [<= 0], i.e. (by [Outcome]) ["X"] cannot force a win.
    A human move can only lower the value (the value is the maximum over
    ["X"]'s moves); the bot's move keeps it (it reaches the value, C6); a
    reset starts from the empty board, whose value is [0]. *)

From stdpp Require Import base list.
From Stdlib Require Import ZArith.
From S2P Require Import Prelude Board Minimax BestMove Outcome Game.

Definition x_held (s : game) : Prop :=
  has_line MarkO (cur s) \/ (Spec.game_value (cur s) (depth s) <= 0)%Z.

(** A position of value [<= 0] where ["O"] has no line has no line of
    ["X"] either. *)
Lemma no_x_line board depth :
  depth <= 9 -> ~ has_line MarkO board -> (Spec.game_value board depth <= 0)%Z ->
  ~ has_line MarkX board.
Proof.
  intros Hd HO Hv HX.
  assert (gameOver board = true) as G by (apply gameOver_iff; auto).
  rewrite game_value_terminal in Hv by done.
  assert (checkWinner board = Some WinX) as Hw.
  { apply (checkWinner_loop_single _ _ MarkX); [by left|done|]. by intros [| |] ? ?. }
  unfold terminal_score in Hv. rewrite decide_True in Hv by done. lia.
Qed.

Lemma x_held_fill s i m :
  gameboard s < length (heap s) -> cur s !! i = Some Blank ->
  has_line MarkO (cur s) -> has_line MarkO (cur (place s i m)).
Proof. intros Hg Hi HO. rewrite cur_place by done. by apply has_line_insert. Qed.

(** A human move keeps the invariant. *)
Lemma x_held_click s index s' :
  inv s -> x_held s -> handleClick index s = Some s' -> x_held s'.
Proof.
  intros [Hcore Hq] Hx Hc. destruct (handleClick_place s index s' Hc) as [Hi ->].
  pose proof (inv_core_blanks s Hcore) as Hbd. destruct Hcore as (_ & Hg & _).
  destruct Hx as [HO|Hv]; [left; by apply x_held_fill|].
  destruct (decide (has_line MarkO (cur s))) as [HO|HO]; [left; by apply x_held_fill|].
  right. unfold x_held. rewrite cur_place by done. simpl.
  assert (gameOver (cur s) = false) as G.
  { apply not_true_iff_false. rewrite gameOver_iff. intros [HX|[?|Hb]]; [|done|].
    - apply (no_x_line (cur s) (depth s)); [lia|done|done|done].
    - pose proof (proj1 (blanks_pos (cur s)) ltac:(by eapply list_elem_of_lookup_2)). lia. }
  destruct Hq as [Hq|He]; [congruence|].
  destruct (game_value_minimax (cur s) (depth s) G ltac:(lia)) as [Hall _].
  specialize (Hall index Hi). unfold Spec.turn_mark in Hall. rewrite He in Hall |- *. lia.
Qed.

(** The effect keeps it: a timer changes no cell, and the bot's move
    reaches the value of the position. *)
Lemma x_held_effect s : inv_core s -> x_held s -> x_held (effect s).1.
Proof.
  intros Hcore Hx. pose proof (inv_core_blanks s Hcore) as Hbd.
  unfold effect. destruct (gameOver (cur s)) eqn:G; [done|].
  destruct (Nat.even (depth s)) eqn:Hodd; simpl; [done|].
  destruct (computerMove_place s G Hodd) as (m & Hrun & Hm & ->).
  destruct Hcore as (_ & Hg & _).
  destruct Hx as [HO|Hv]; [left; by apply x_held_fill|]. right.
  unfold x_held. rewrite cur_place by done. simpl.
  pose proof (bestMove_attains (cur s) (depth s) m (cur s) Hodd G ltac:(lia) Hrun) as E.
  unfold move_score in E. rewrite E. done.
Qed.

Lemma x_held_settle s : inv_core s -> x_held s -> x_held (settle s).
Proof.
  intros Hcore Hx. rewrite settle_unfold. destruct (effect s).2.
  - apply x_held_effect; [by apply inv_core_effect|by apply x_held_effect].
  - by apply x_held_effect.
Qed.

Lemma x_held_reset s : x_held (reset_state s).
Proof. right. rewrite cur_reset. simpl. unfold empty_board. rewrite empty_board_value. lia. Qed.

Lemma x_held_step e s : inv s -> x_held s -> x_held (step e s).
Proof.
  intros Hinv Hx. destruct e as [index| |]; simpl.
  - destruct (handleClick index s) as [s'|] eqn:Hc; [|done].
    destruct (handleClick_place s index s' Hc) as [Hb Hs'].
    apply x_held_settle; [subst s'; apply inv_core_place; [apply Hinv|done|done]|].
    by apply (x_held_click s index).
  - apply x_held_settle; [apply inv_core_reset, Hinv|apply x_held_reset].
  - destruct (timers s) as [|loc rest] eqn:Ht; [done|].
    apply x_held_settle; [apply inv_core_reset, inv_core_timer; [apply Hinv|done]|apply x_held_reset].
Qed.

Lemma reachable_x_held s : reachable s -> x_held s.
Proof.
  induction 1 as [|e s Hr IH _].
  - right. unfold init, cur. simpl. unfold empty_board. rewrite empty_board_value. lia.
  - apply x_held_step; [by apply reachable_inv|done].
Qed.

(** ** Properties *)

(** C3: the bot never loses: in every reachable state of the page, the
    human (["X"]) owns a line only if the bot (["O"]) owns one too. *)
Theorem bot_never_loses s :
  reachable s -> has_line MarkX (cur s) -> has_line MarkO (cur s).
Proof.
  intros Hr HX. destruct (reachable_x_held s Hr) as [HO|Hv]; [done|].
  destruct (decide (has_line MarkO (cur s))) as [|HO]; [done|]. exfalso.
  pose proof (inv_core_blanks s (proj1 (reachable_inv s Hr))).
  apply (no_x_line (cur s) (depth s)); [lia|done|done|done].
Qed.

(** ** Witnesses *)

Lemma bot_never_loses_witness :
  reachable (step (Click 6) (step (Click 3) (step (Click 2) (step (Click 0) init)))) /\
  has_line MarkX (cur (step (Click 6) (step (Click 3) (step (Click 2) (step (Click 0) init))))) /\
  has_line MarkO (cur (step (Click 6) (step (Click 3) (step (Click 2) (step (Click 0) init))))).
Proof.
  assert (Hr : reachable (step (Click 6) (step (Click 3) (step (Click 2) (step (Click 0) init))))).
  { repeat (apply reach_step; [|cbn [enabled]; lia]). constructor. }
  assert (HX : has_line MarkX (cur (step (Click 6) (step (Click 3) (step (Click 2) (step (Click 0) init))))))
    by (apply (bool_decide_eq_true_1 _); vm_compute; reflexivity).
  split; [exact Hr|]. split; [exact HX|]. exact (bot_never_loses _ Hr HX).
Defined.
